(** * gdwg::graph<N, E>: a directed graph with optionally weighted edges

    A shallow embedding of [src/gdwg_graph.h].  The container keeps its
    nodes in a [std::set<N>] and its edges in a
    [std::vector<std::shared_ptr<edge<N, E>>>]: the vector holds pointers,
    the edge objects live on the free store and are renamed in place by
    [replace].  The embedding therefore has an explicit store of edge
    objects ([heap]) and graphs that hold locations into it; every
    operation takes the store and the graph and gives both back. *)

From Stdlib Require Import ZArith.
From stdpp Require Import base decidable option list sorting gmap strings pretty.

#[local] Set Warnings "-clear-no-such-hyp".

Local Open Scope string_scope.
Local Open Scope list_scope.
Local Open Scope nat_scope.

(** ** What the template parameters must offer *)

(** [operator<] of a node or weight type: a strict total order, as
    [std::set] and [std::sort] require (the [std::less] requirements). *)
Class Ordered (A : Type) := {
  less : relation A;
  less_dec :: RelDecision less;
  less_strict :: StrictOrder less;
  less_trichotomy :: Trichotomy less
}.
Global Hint Mode Ordered ! : typeclass_instances.

Definition lessb `{Ordered A} (x y : A) : bool := bool_decide (less x y).

(** [std::optional<E>]'s [operator<]: [nullopt] is below every value, two
    values compare as [E] does. *)
Definition opt_lessb `{Ordered A} (x y : option A) : bool :=
  match x, y with
  | _, None => false
  | None, Some _ => true
  | Some a, Some b => lessb a b
  end.

(** [x <= y], that is, not [y < x]. *)
Definition less_eq `{Ordered A} (x y : A) : Prop := less x y ∨ x = y.

(** The order of [std::optional<E>] in words: absent first, then by value. *)
Definition opt_less_eq `{Ordered A} (x y : option A) : Prop :=
  match x, y with
  | None, _ => True
  | Some _, None => False
  | Some a, Some b => less_eq a b
  end.

(** The instances the tests use: [int] for weights and nodes, and
    [std::string] for nodes, compared as sequences of characters and
    written to a stream as it is. *)
Global Instance Z_ordered : Ordered Z :=
  {| less := Z.lt; less_strict := Z.lt_strorder; less_trichotomy := Z.lt_trichotomy |}.

Global Program Instance string_ordered : Ordered string :=
  {| less := strict String.le |}.
Next Obligation.
  intros x y. destruct (decide (x = y)) as [->|Hne]; [by auto|].
  destruct (total String.le x y) as [Hxy|Hyx].
  - left. split; [done|]. intros Hyx. apply Hne. by apply (anti_symm String.le).
  - right; right. split; [done|]. intros Hxy. apply Hne. by apply (anti_symm String.le).
Qed.

Global Instance pretty_string : Pretty string := id.

(** ** std::sort *)

(** [std::sort(first, last, comp)] leaves the range sorted by [comp], in
    some order of equivalent elements.  The embedding takes the stable
    insertion sort, one of the results [std::sort] may give.  For the
    three uses of the source the choice shows in no value: every sorted
    arrangement of the pointers holds the same sequence of edges
    ([view_sorted_unique] for [sortedges], [edges_sorted_unique] for
    [edges]), and nodes are sorted by a total order
    ([std_sort_lessb_unique]).  It shows in the places of pointers to
    equal edges only, which a graph without duplicates does not have
    ([sorted_pointers_unique]); what is stated of the order after a sort
    is therefore stated of the edges shown, and of the pointers only
    where the graph satisfies I2. *)
Section std_sort.
Context {A : Type} (comp : A → A → bool).

Fixpoint sort_insert (x : A) (l : list A) : list A :=
  match l with
  | [] => [x]
  | y :: l' => if comp y x then y :: sort_insert x l' else x :: y :: l'
  end.

Fixpoint std_sort (l : list A) : list A :=
  match l with
  | [] => []
  | x :: l' => sort_insert x (std_sort l')
  end.

(** No element is above a later one. *)
Definition sorted_by (l : list A) : Prop :=
  Sorted (λ a b, comp b a = false) l.
End std_sort.

(** The line feed, written ["\n"] in the source. *)
Definition LF : string := String (Ascii.ascii_of_nat 10) EmptyString.

(** ** Results of calls that may throw *)

(** A call returns a value or throws [std::runtime_error{emsg}]. *)
Inductive outcome (A : Type) : Type :=
  | Ret (a : A)
  | Throw (emsg : string).
Arguments Ret {A} a.
Arguments Throw {A} emsg.

Definition is_throw {A} (o : outcome A) : bool :=
  match o with Throw _ => true | Ret _ => false end.

Section gdwg.
Context {N E : Type}.
Context `{!EqDecision N, !Countable N, !Inhabited N, !Ordered N, !Pretty N}.
Context `{!EqDecision E, !Ordered E, !Pretty E}.

(** ** The edge classes *)

(** [weighted_edge] and [unweighted_edge], the two classes derived from
    the abstract [edge]; the field [is_weighted_] is fixed by the
    constructor and is what [is_weighted] returns. *)
Inductive edge : Type :=
  | weighted_edge (src_ dst_ : N) (weight_ : E)
  | unweighted_edge (src_ dst_ : N).

Global Instance edge_eq_dec : EqDecision edge.
Proof. solve_decision. Defined.

Global Instance edge_inhabited : Inhabited edge :=
  populate (unweighted_edge inhabitant inhabitant).

Definition print_edge (e : edge) : string :=
  match e with
  | weighted_edge src_ dst_ weight_ =>
      pretty src_ +:+ " -> " +:+ pretty dst_ +:+ " | W | " +:+ pretty weight_
  | unweighted_edge src_ dst_ =>
      pretty src_ +:+ " -> " +:+ pretty dst_ +:+ " | U"
  end.

Definition is_weighted (e : edge) : bool :=
  match e with
  | weighted_edge _ _ _ => true
  | unweighted_edge _ _ => false
  end.

Definition get_weight (e : edge) : option E :=
  match e with
  | weighted_edge _ _ weight_ => Some weight_
  | unweighted_edge _ _ => None
  end.

Definition get_nodes (e : edge) : N * N :=
  match e with
  | weighted_edge src_ dst_ _ => (src_, dst_)
  | unweighted_edge src_ dst_ => (src_, dst_)
  end.

(** [(p == 1 ? dst_ : src_) = v] *)
Definition replace (p : Z) (v : N) (e : edge) : edge :=
  match e with
  | weighted_edge src_ dst_ weight_ =>
      if (p =? 1)%Z then weighted_edge src_ v weight_ else weighted_edge v dst_ weight_
  | unweighted_edge src_ dst_ =>
      if (p =? 1)%Z then unweighted_edge src_ v else unweighted_edge v dst_
  end.

(** ** The store of edge objects and the graph *)

(** A [std::shared_ptr<edge>] is a location of the store.  A location a
    live pointer holds is always allocated ([owned] below); reading any
    other location gives the default edge. *)
Abbreviation loc := nat (only parsing).
Abbreviation heap := (list edge) (only parsing).

Definition deref (h : heap) (e : loc) : edge := h !!! e.

(** [std::make_shared]: a new object at a location no pointer holds. *)
Definition make_shared (h : heap) (obj : edge) : loc * heap :=
  (length h, h ++ [obj]).

(** [e->replace(p, v)] *)
Definition replace_at (h : heap) (e : loc) (p : Z) (v : N) : heap :=
  <[e := replace p v (deref h e)]> h.

Record graph : Type := Graph {
  nodes_ : gset N;
  edges_ : list loc
}.

(** An [edge_iterator] is a position of [edges_]; [edges_.end()] is its
    length. *)
Abbreviation edge_iterator := nat (only parsing).

(** *** Constructors *)

Definition graph_default : graph := Graph ∅ [].

(** [graph(std::initializer_list<N>)] and [graph(InputIt, InputIt)] *)
Definition graph_of_list (il : list N) : graph := Graph (list_to_set il) [].

(** The copy constructor and copy assignment: the set is copied, and the
    vector of pointers is copied, pointer by pointer. *)
Definition graph_copy (other : graph) : graph :=
  Graph (nodes_ other) (edges_ other).

(** *** Accessors *)

Definition is_node (g : graph) (value : N) : bool :=
  bool_decide (value ∈ nodes_ g).

Definition empty (g : graph) : bool := bool_decide (nodes_ g = ∅).

(** The loop of [find], over the part of the vector not yet visited; the
    result counts from the first position of that part. *)
Fixpoint find_in (h : heap) (es : list loc) (src dst : N) (weight : option E)
    : edge_iterator :=
  match es with
  | [] => 0
  | e :: es' =>
      let strpair := get_nodes (deref h e) in
      if bool_decide (strpair.1 = src) && bool_decide (strpair.2 = dst)
         && bool_decide (get_weight (deref h e) = weight)
      then 0
      else S (find_in h es' src dst weight)
  end.

Definition find (h : heap) (g : graph) (src dst : N) (weight : option E)
    : edge_iterator :=
  find_in h (edges_ g) src dst weight.

Definition edges_end (g : graph) : edge_iterator := length (edges_ g).

(** The comparator of [sortedges]. *)
Definition sort_key (a b : edge) : bool :=
  let node_a := get_nodes a in
  let node_b := get_nodes b in
  if negb (bool_decide (node_a.1 = node_b.1)) then lessb node_a.1 node_b.1
  else if negb (bool_decide (node_a.2 = node_b.2)) then lessb node_a.2 node_b.2
  else opt_lessb (get_weight a) (get_weight b).

Definition sortedges (h : heap) (g : graph) : graph :=
  Graph (nodes_ g) (std_sort (λ a b, sort_key (deref h a) (deref h b)) (edges_ g)).

Definition is_connected (h : heap) (g : graph) (src dst : N) : outcome bool :=
  if is_node g src && is_node g dst then
    Ret (existsb (λ e, let strpair := get_nodes (deref h e) in
                       bool_decide (strpair.1 = src) && bool_decide (strpair.2 = dst))
           (edges_ g))
  else Throw "Cannot call gdwg::graph<N, E>::is_connected if src or dst node don't exist in the graph".

Definition nodes (g : graph) : list N :=
  std_sort lessb (elements (nodes_ g)).

(** The comparator of [edges]. *)
Definition sort_weight (a b : edge) : bool :=
  opt_lessb (get_weight a) (get_weight b).

Definition edges (h : heap) (g : graph) (src dst : N) : outcome (list loc) :=
  if is_node g src && is_node g dst then
    let res := filter (λ e, let strpair := get_nodes (deref h e) in
                            strpair.1 = src ∧ strpair.2 = dst) (edges_ g) in
    Ret (std_sort (λ a b, sort_weight (deref h a) (deref h b)) res)
  else Throw "Cannot call gdwg::graph<N, E>::edges if src or dst node don't exist in the graph".

(** The loop of [connections]: [res] collects the destinations not seen
    before. *)
Fixpoint connections_loop (h : heap) (src : N) (es : list loc) (res : list N)
    : list N :=
  match es with
  | [] => res
  | e :: es' =>
      let strpair := get_nodes (deref h e) in
      let dst := strpair.2 in
      if bool_decide (strpair.1 = src) && negb (bool_decide (dst ∈ res))
      then connections_loop h src es' (res ++ [dst])
      else connections_loop h src es' res
  end.

Definition connections (h : heap) (g : graph) (src : N) : outcome (list N) :=
  if is_node g src then
    Ret (std_sort lessb (connections_loop h src (edges_ g) []))
  else Throw "Cannot call gdwg::graph<N, E>::connections if src doesn't exist in the graph".

(** *** Modifiers *)

Definition insert_node (h : heap) (g : graph) (value : N) : bool * heap * graph :=
  if bool_decide (value ∈ nodes_ g) then (false, h, g)
  else (true, h, Graph ({[value]} ∪ nodes_ g) (edges_ g)).

Definition insert_edge (h : heap) (g : graph) (src dst : N) (weight : option E)
    : outcome bool * heap * graph :=
  if is_node g src && is_node g dst then
    if bool_decide (find h g src dst weight = edges_end g) then
      let '(new_edge, h') :=
        match weight with
        | None => make_shared h (unweighted_edge src dst)
        | Some w => make_shared h (weighted_edge src dst w)
        end in
      (Ret true, h', sortedges h' (Graph (nodes_ g) (edges_ g ++ [new_edge])))
    else (Ret false, h, g)
  else (Throw "Cannot call gdwg::graph<N, E>::insert_edge when either src or dst node does not exist",
        h, g).

(** The body shared by the loops of [replace_node] and
    [merge_replace_node]: [strpair] is read once, then each end that
    equals [old_data] is overwritten. *)
Definition rename_at (h : heap) (e : loc) (old_data new_data : N) : heap :=
  let strpair := get_nodes (deref h e) in
  let h1 := if bool_decide (strpair.1 = old_data) then replace_at h e 0%Z new_data else h in
  if bool_decide (strpair.2 = old_data) then replace_at h1 e 1%Z new_data else h1.

Definition replace_node (h : heap) (g : graph) (old_data new_data : N)
    : outcome bool * heap * graph :=
  if is_node g old_data then
    if negb (is_node g new_data) then
      let nodes' := {[new_data]} ∪ (nodes_ g ∖ {[old_data]}) in
      let h' := foldl (λ h e, rename_at h e old_data new_data) h (edges_ g) in
      (Ret true, h', sortedges h' (Graph nodes' (edges_ g)))
    else (Ret false, h, g)
  else (Throw "Cannot call gdwg::graph<N, E>::replace_node on a node that doesn't exist", h, g).

(** The loop of [merge_replace_node].  The vector is [done ++ todo] and
    the iterator [e] stands at position [length done], on the head of
    [todo]; [edges_.erase(e)] drops that head and leaves [e] in place,
    [++e] moves the head over to [done]. *)
Fixpoint merge_loop (h : heap) (done todo : list loc) (old_data new_data : N)
    : heap * list loc :=
  match todo with
  | [] => (h, done)
  | e :: todo' =>
      let h' := rename_at h e old_data new_data in
      let strpair := get_nodes (deref h' e) in
      let first_it :=
        find_in h' (done ++ e :: todo') strpair.1 strpair.2 (get_weight (deref h' e)) in
      if negb (bool_decide (first_it = length done))
      then merge_loop h' done todo' old_data new_data
      else merge_loop h' (done ++ [e]) todo' old_data new_data
  end.

Definition merge_replace_node (h : heap) (g : graph) (old_data new_data : N)
    : outcome unit * heap * graph :=
  if is_node g old_data && is_node g new_data then
    let '(h', es) := merge_loop h [] (edges_ g) old_data new_data in
    (Ret (), h', sortedges h' (Graph (nodes_ g) es))
  else (Throw "Cannot call gdwg::graph<N, E>::merge_replace_node on old or new data if they don't exist in the graph",
        h, g).

(** The loop of [erase_node]. *)
Fixpoint erase_node_loop (h : heap) (value : N) (es : list loc) : list loc :=
  match es with
  | [] => []
  | e :: es' =>
      let strpair := get_nodes (deref h e) in
      if bool_decide (strpair.1 = value) || bool_decide (strpair.2 = value)
      then erase_node_loop h value es'
      else e :: erase_node_loop h value es'
  end.

Definition erase_node (h : heap) (g : graph) (value : N) : bool * heap * graph :=
  if is_node g value then
    (true, h, sortedges h (Graph (nodes_ g ∖ {[value]}) (erase_node_loop h value (edges_ g))))
  else (false, h, g).

Definition erase_edge (h : heap) (g : graph) (src dst : N) (weight : option E)
    : outcome bool * heap * graph :=
  if is_node g src && is_node g dst then
    let target_it := find h g src dst weight in
    if negb (bool_decide (target_it = edges_end g)) then
      (Ret true, h, sortedges h (Graph (nodes_ g) (delete target_it (edges_ g))))
    else (Ret false, h, g)
  else (Throw "Cannot call gdwg::graph<N, E>::erase_edge on src or dst if they don't exist in the graph",
        h, g).

(** [erase_edge(edge_iterator)]: [edges_.erase(i)] returns the position
    [i] itself, now of the element that followed.  Erasing at
    [edges_.end()] is undefined in the source; here it erases nothing. *)
Definition erase_edge_at (h : heap) (g : graph) (i : edge_iterator)
    : edge_iterator * heap * graph :=
  let res := i in
  (res, h, sortedges h (Graph (nodes_ g) (delete i (edges_ g)))).

(** [erase_edge(edge_iterator, edge_iterator)]; a range whose end comes
    before its start is undefined in the source. *)
Definition erase_edge_range (h : heap) (g : graph) (i s : edge_iterator)
    : edge_iterator * heap * graph :=
  let res := i in
  (res, h, sortedges h (Graph (nodes_ g) (take i (edges_ g) ++ drop s (edges_ g)))).

Definition clear (h : heap) (g : graph) : heap * graph := (h, Graph ∅ []).

(** *** The iterator class *)

(** [operator*] of [graph::iterator]: the tuple [(from, to, weight)]. *)
Definition iterator_deref (h : heap) (g : graph) (curr_ : edge_iterator)
    : N * N * option E :=
  let e := deref h (edges_ g !!! curr_) in
  ((get_nodes e).1, (get_nodes e).2, get_weight e).

Definition begin (g : graph) : edge_iterator := 0.
Definition iterator_next (curr_ : edge_iterator) : edge_iterator := S curr_.
Definition iterator_prev (curr_ : edge_iterator) : edge_iterator := pred curr_.

(** *** Comparison *)

(** [this == other], both graphs pointing into the store [h]. *)
Definition graph_eqb (h : heap) (g other : graph) : bool :=
  let other_n := nodes_ other in
  let other_e := edges_ other in
  if bool_decide (size other_n = size (nodes_ g))
     && bool_decide (length other_e = length (edges_ g)) then
    forallb (λ n, bool_decide (n ∈ nodes_ g)) (elements other_n)
    && forallb (λ e, let strpair := get_nodes (deref h e) in
                     negb (bool_decide (find h g strpair.1 strpair.2 (get_weight (deref h e))
                                        = edges_end g)))
         other_e
  else false.

(** *** Extractor *)

(** The innermost loop of [operator<<]. *)
Definition put_edges (h : heap) (oss : string) (cn_edges : list loc) : string :=
  foldl (λ oss e, let temp_str := print_edge (deref h e) in
                  oss +:+ "  " +:+ temp_str +:+ LF) oss cn_edges.

(** The loop over [conn]; a throw of [g.edges] leaves the loop. *)
Fixpoint put_conn (h : heap) (g : graph) (n : N) (oss : string) (conn : list N)
    : outcome string :=
  match conn with
  | [] => Ret oss
  | cn :: conn' =>
      match edges h g n cn with
      | Ret cn_edges => put_conn h g n (put_edges h oss cn_edges) conn'
      | Throw emsg => Throw emsg
      end
  end.

(** The loop over [nodes]. *)
Fixpoint put_nodes (h : heap) (g : graph) (oss : string) (ns : list N)
    : outcome string :=
  match ns with
  | [] => Ret oss
  | n :: ns' =>
      let oss := oss +:+ pretty n +:+ " (" +:+ LF in
      match connections h g n with
      | Ret conn =>
          match put_conn h g n oss conn with
          | Ret oss => put_nodes h g (oss +:+ ")" +:+ LF) ns'
          | Throw emsg => Throw emsg
          end
      | Throw emsg => Throw emsg
      end
  end.

(** [operator<<] is [noexcept]: an exception that would leave it ends
    the program ([std::terminate]), which is [None] here; otherwise the
    text written to [os]. *)
Definition extractor (h : heap) (g : graph) : option string :=
  match put_nodes h g LF (nodes g) with
  | Ret res => Some res
  | Throw _ => None
  end.

(** [end()] of the graph. *)
Definition graph_end (g : graph) : edge_iterator := edges_end g.

(** [operator==] of [graph::iterator]: the positions are compared. *)
Definition iterator_eqb (it other : edge_iterator) : bool :=
  bool_decide (it = other).

(** The range-based [for] over a graph, as the tests write it:
    [for (auto const& [from, to, weight] : g)].  From [it], while [it]
    differs from [end()], the iterator is dereferenced and advanced; each
    turn uses one unit of [fuel]. *)
Fixpoint range_for_from (h : heap) (g : graph) (fuel : nat) (it : edge_iterator)
    : list (N * N * option E) :=
  match fuel with
  | 0 => []
  | S fuel' =>
      if iterator_eqb it (graph_end g) then []
      else iterator_deref h g it :: range_for_from h g fuel' (iterator_next it)
  end.

Definition range_for (h : heap) (g : graph) : list (N * N * option E) :=
  range_for_from h g (S (length (edges_ g))) (begin g).

(** [insert_node] called for each value of [vs] in turn. *)
Definition insert_nodes (hg : heap * graph) (vs : list N) : heap * graph :=
  foldl (λ hg value, let '(_, h', g') := insert_node hg.1 hg.2 value in (h', g')) hg vs.

(** *** The loop of the tests *)

(** The loop by which the tests fill a graph: for each
    [(from, to, weight)] both nodes are inserted, then the edge. *)
Definition fill (hg : heap * graph) (v : list (N * N * option E)) : heap * graph :=
  foldl (λ hg t,
           let '(from, to, weight) := t in
           let '(_, h1, g1) := insert_node hg.1 hg.2 from in
           let '(_, h2, g2) := insert_node h1 g1 to in
           let '(_, h3, g3) := insert_edge h2 g2 from to weight in
           (h3, g3)) hg v.

(** ** The data model in the words of the specification *)

(** The edges of a graph, as values, in the order of the vector. *)
Definition view (h : heap) (g : graph) : list edge := deref h <$> edges_ g.

(** The pointers of a graph are distinct and point to allocated objects:
    each comes from one [make_shared], and a [shared_ptr] keeps its
    object alive. *)
Definition owned (h : heap) (g : graph) : Prop :=
  NoDup (edges_ g) ∧ Forall (λ e, e < length h) (edges_ g).

(** The edge that [insert_edge] constructs. *)
Definition make_edge (src dst : N) (weight : option E) : edge :=
  match weight with
  | None => unweighted_edge src dst
  | Some w => weighted_edge src dst w
  end.

Definition has_edge (h : heap) (g : graph) (src dst : N) (weight : option E) : Prop :=
  make_edge src dst weight ∈ view h g.

(** The edges from [src] to [dst]. *)
Definition from_to (src dst : N) (a : edge) : Prop :=
  (get_nodes a).1 = src ∧ (get_nodes a).2 = dst.

Global Instance from_to_dec src dst a : Decision (from_to src dst a).
Proof. unfold from_to. apply _. Defined.

(** I1: the ends of every edge are nodes. *)
Definition I1 (h : heap) (g : graph) : Prop :=
  Forall (λ e, (get_nodes e).1 ∈ nodes_ g ∧ (get_nodes e).2 ∈ nodes_ g) (view h g).

(** I2: no two edges are duplicates. *)
Definition I2 (h : heap) (g : graph) : Prop := NoDup (view h g).

(** Ascending by source, then destination, then weight with the absent
    weight first. *)
Definition edge_le (a b : edge) : Prop :=
  less (get_nodes a).1 (get_nodes b).1
  ∨ (get_nodes a).1 = (get_nodes b).1
    ∧ (less (get_nodes a).2 (get_nodes b).2
       ∨ (get_nodes a).2 = (get_nodes b).2
         ∧ opt_less_eq (get_weight a) (get_weight b)).

(** Ascending by weight, the absent weight first. *)
Definition weight_le (a b : edge) : Prop :=
  opt_less_eq (get_weight a) (get_weight b).

(** I3: the edge collection is in ascending order. *)
Definition I3 (h : heap) (g : graph) : Prop := Sorted edge_le (view h g).

(** An edge with every end equal to [old_data] renamed to [new_data]. *)
Definition rename (old_data new_data : N) (e : edge) : edge :=
  let f (x : N) := if decide (x = old_data) then new_data else x in
  match e with
  | weighted_edge src_ dst_ weight_ => weighted_edge (f src_) (f dst_) weight_
  | unweighted_edge src_ dst_ => unweighted_edge (f src_) (f dst_)
  end.

(** Of the edges [todo], taken in order, those that duplicate neither an
    edge of [seen] nor an earlier edge of [todo]. *)
Fixpoint keep_first (seen todo : list edge) : list edge :=
  match todo with
  | [] => []
  | e :: todo' =>
      if decide (e ∈ seen) then keep_first seen todo'
      else e :: keep_first (seen ++ [e]) todo'
  end.

(** The same choice among pointers [todo], each standing for the edge
    [key] reads at it: the pointers kept are those met first. *)
Fixpoint keep_first_on {A} (key : A → edge) (seen : list edge) (todo : list A)
    : list A :=
  match todo with
  | [] => []
  | x :: todo' =>
      if decide (key x ∈ seen) then keep_first_on key seen todo'
      else x :: keep_first_on key (seen ++ [key x]) todo'
  end.

(** The value an iterator shows for an edge. *)
Definition triple (a : edge) : N * N * option E :=
  ((get_nodes a).1, (get_nodes a).2, get_weight a).

(** The edge starts or ends at [value]. *)
Definition touches (value : N) (a : edge) : Prop :=
  (get_nodes a).1 = value ∨ (get_nodes a).2 = value.

Global Instance touches_dec value a : Decision (touches value a).
Proof. unfold touches. apply _. Defined.

(** *** The dump, in the words of the specification *)

Definition concat_str (l : list string) : string := foldr String.append "" l.

(** The line of an edge: its rendering, indented by two spaces. *)
Definition dump_line (a : edge) : string := "  " +:+ print_edge a +:+ LF.

(** [b] is the block of node [n]: the header, then for the distinct
    destinations [ds] of its edges, ascending, the edges to each
    destination ascending by weight, one line each, then the closing
    line. *)
Definition block_of (h : heap) (g : graph) (n : N) (b : string) : Prop :=
  ∃ (ds : list N) (ess : list (list edge)),
    Sorted less ds
    ∧ (∀ d, d ∈ ds ↔ ∃ a, a ∈ view h g ∧ from_to n d a)
    ∧ Forall2 (λ d es, es ≡ₚ filter (from_to n d) (view h g) ∧ Sorted weight_le es)
        ds ess
    ∧ b = pretty n +:+ " (" +:+ LF
            +:+ concat_str (dump_line <$> concat ess) +:+ ")" +:+ LF.

(** [s] is the dump of the graph: a line feed, then the block of every
    node, the nodes ascending. *)
Definition dump_of (h : heap) (g : graph) (s : string) : Prop :=
  ∃ (ns : list N) (bs : list string),
    Sorted less ns
    ∧ (∀ n, n ∈ ns ↔ n ∈ nodes_ g)
    ∧ Forall2 (block_of h g) ns bs
    ∧ s = LF +:+ concat_str bs.

(** * Properties *)

(** ** std_sort *)

Section std_sort_facts.
Context {A : Type} (comp : A → A → bool).
Implicit Types (x : A) (l : list A).

Lemma sort_insert_perm x l : sort_insert comp x l ≡ₚ x :: l.
Proof.
  induction l as [|y l IH]; simpl; [done|].
  destruct (comp y x); [|done].
  rewrite IH. apply Permutation_swap.
Qed.

Lemma std_sort_perm l : std_sort comp l ≡ₚ l.
Proof.
  induction l as [|x l IH]; simpl; [done|].
  by rewrite sort_insert_perm, IH.
Qed.

Lemma std_sort_length l : length (std_sort comp l) = length l.
Proof. by rewrite std_sort_perm. Qed.

(** A range that is sorted already is left as it is. *)
Lemma std_sort_sorted_id l : sorted_by comp l → std_sort comp l = l.
Proof.
  induction 1 as [|x l Hl IH Hhd]; simpl; [done|].
  rewrite IH. destruct Hhd as [|y l Hxy]; simpl; [done|].
  by rewrite Hxy.
Qed.

(** Sorting sorts, for a comparator that is asymmetric. *)
Hypothesis comp_asym : ∀ x y, comp x y = true → comp y x = false.

Lemma sort_insert_sorted x l :
  sorted_by comp l → sorted_by comp (sort_insert comp x l).
Proof.
  unfold sorted_by. induction 1 as [|y l Hl IH Hhd]; simpl.
  { repeat constructor. }
  destruct (comp y x) eqn:Hyx.
  - constructor; [done|].
    destruct Hhd as [|z l Hyz]; simpl.
    + constructor. by apply comp_asym.
    + destruct (comp z x); constructor; [done|]. by apply comp_asym.
  - constructor; [by constructor|]. by constructor.
Qed.

Lemma std_sort_sorted l : sorted_by comp (std_sort comp l).
Proof.
  induction l as [|x l IH]; simpl; [constructor|].
  by apply sort_insert_sorted.
Qed.
End std_sort_facts.

(** Sorting pointers by what they point to sorts the values. *)
Lemma std_sort_fmap {A B} (f : A → B) (comp : B → B → bool) (l : list A) :
  f <$> std_sort (λ a b, comp (f a) (f b)) l = std_sort comp (f <$> l).
Proof.
  induction l as [|x l IH]; csimpl; [done|]. rewrite <-IH.
  generalize (std_sort (λ a b, comp (f a) (f b)) l). clear IH.
  intros k. induction k as [|y k IH]; csimpl; [done|].
  destruct (comp (f y) (f x)); csimpl; by rewrite ?IH.
Qed.

Lemma Sorted_fmap_iff {A B} (f : A → B) (R : relation B) (l : list A) :
  Sorted (λ a b, R (f a) (f b)) l ↔ Sorted R (f <$> l).
Proof.
  induction l as [|x l IH]; csimpl; [split; constructor|].
  split; inversion_clear 1 as [|?? Hs Hhd]; constructor; try (by apply IH).
  - destruct Hhd; csimpl; by constructor.
  - destruct l; csimpl in *; constructor. by inversion_clear Hhd.
Qed.

(** ** The orders *)

Section orders.
Context `{Ordered A}.
Implicit Types x y z : A.

Lemma lessb_true x y : lessb x y = true ↔ less x y.
Proof. unfold lessb. by rewrite bool_decide_eq_true. Qed.

Lemma lessb_false x y : lessb x y = false ↔ ¬ less x y.
Proof. unfold lessb. by rewrite bool_decide_eq_false. Qed.

Lemma less_asym x y : less x y → ¬ less y x.
Proof. intros H1 H2. apply (irreflexivity less x). by trans y. Qed.

Lemma not_less_iff x y : ¬ less y x ↔ less_eq x y.
Proof.
  unfold less_eq. split.
  - intros Hn. destruct (trichotomy less x y) as [?|[?|?]]; tauto.
  - intros [Hl| ->]; [by apply less_asym|apply (irreflexivity less)].
Qed.

Global Instance less_eq_dec : RelDecision (less_eq (A:=A)).
Proof.
  intros x y. destruct (decide (less y x)) as [Hl|Hn].
  - right. intros Hle. by apply not_less_iff in Hle.
  - left. by apply not_less_iff.
Defined.

Global Instance opt_less_eq_dec : RelDecision (opt_less_eq (A:=A)).
Proof. intros [a|] [b|]; simpl; apply _. Defined.

Global Instance less_eq_preorder : PreOrder (less_eq (A:=A)).
Proof.
  split.
  - intros x. by right.
  - intros x y z [Hxy| ->] [Hyz| ->]; unfold less_eq; eauto.
    left. by trans y.
Qed.

Global Instance less_eq_antisym : AntiSymm (=) (less_eq (A:=A)).
Proof.
  intros x y [Hxy|?] [Hyx|?]; try done.
  by destruct (less_asym x y).
Qed.

Lemma lessb_asym x y : lessb x y = true → lessb y x = false.
Proof. rewrite lessb_true, lessb_false. apply less_asym. Qed.

Lemma opt_lessb_false (x y : option A) : opt_lessb y x = false ↔ opt_less_eq x y.
Proof.
  destruct x as [a|], y as [b|]; simpl; try done.
  by rewrite lessb_false, not_less_iff.
Qed.

Global Instance opt_less_eq_preorder : PreOrder (opt_less_eq (A:=A)).
Proof.
  split.
  - intros [a|]; simpl; done.
  - intros [a|] [b|] [c|]; simpl; try done. by etrans.
Qed.

Global Instance opt_less_eq_antisym : AntiSymm (=) (opt_less_eq (A:=A)).
Proof.
  intros [a|] [b|]; simpl; try done.
  intros ??. f_equal. by apply (anti_symm less_eq).
Qed.

Lemma opt_less_eq_total (x y : option A) : opt_less_eq x y ∨ opt_less_eq y x.
Proof.
  destruct x as [a|], y as [b|]; simpl; auto.
  unfold less_eq. destruct (trichotomy less a b) as [?|[?|?]]; auto.
Qed.
End orders.

(** ** The order of edges *)

Implicit Types (h : heap) (g : graph) (e : loc) (es : list loc) (a b c : edge).

(** The invariants can be decided. *)
Global Instance edge_le_dec : RelDecision edge_le.
Proof. intros a b. unfold edge_le. apply _. Defined.

Global Instance weight_le_dec : RelDecision weight_le.
Proof. intros a b. unfold weight_le. apply _. Defined.

Global Instance has_edge_dec h g src dst weight : Decision (has_edge h g src dst weight).
Proof. unfold has_edge. apply _. Defined.

Global Instance owned_dec h g : Decision (owned h g).
Proof. unfold owned. apply _. Defined.

Global Instance I1_dec h g : Decision (I1 h g).
Proof. unfold I1. apply _. Defined.

Global Instance I2_dec h g : Decision (I2 h g).
Proof. unfold I2. apply _. Defined.

Global Instance I3_dec h g : Decision (I3 h g).
Proof. unfold I3. apply _. Defined.

Local Ltac less_absurd :=
  exfalso;
  match goal with
  | H1 : less ?x ?y, H2 : less ?y ?x |- _ => exact (less_asym _ _ H1 H2)
  | H1 : less ?x ?y, H2 : ?x = ?y |- _ =>
      rewrite H2 in H1; exact (irreflexivity less _ H1)
  | H1 : less ?x ?y, H2 : ?y = ?x |- _ =>
      rewrite H2 in H1; exact (irreflexivity less _ H1)
  end.

(** An edge is its ends and its weight. *)
Lemma edge_ext a b :
  get_nodes a = get_nodes b → get_weight a = get_weight b → a = b.
Proof. destruct a, b; simpl; intros; simplify_eq; done. Qed.

Lemma make_edge_get a : make_edge (get_nodes a).1 (get_nodes a).2 (get_weight a) = a.
Proof. by destruct a. Qed.

Lemma get_nodes_make_edge src dst weight :
  get_nodes (make_edge src dst weight) = (src, dst).
Proof. by destruct weight. Qed.

Lemma get_weight_make_edge src dst weight :
  get_weight (make_edge src dst weight) = weight.
Proof. by destruct weight. Qed.

(** The comparator of [sortedges] is the strict part of [edge_le]. *)
Lemma sort_key_false a b : sort_key b a = false ↔ edge_le a b.
Proof.
  unfold sort_key, edge_le.
  destruct (get_nodes a) as [sa da], (get_nodes b) as [sb db]; simpl.
  repeat case_bool_decide; simpl; subst;
    rewrite ?lessb_false, ?not_less_iff, ?opt_lessb_false; unfold less_eq.
  - split; [by auto|]. intros [?|[_ [?|[_ ?]]]]; try done;
      by destruct (irreflexivity less _ ltac:(eassumption)).
  - split; [intros [?|?]; by auto|].
    intros [?|[_ [?|[? ?]]]]; auto; by destruct (irreflexivity less _ ltac:(eassumption)).
  - split; [intros [?|?]; by auto|]. intros [?|[? _]]; auto.
  - split; [intros [?|?]; by auto|]. intros [?|[? _]]; auto.
Qed.

Global Instance edge_le_preorder : PreOrder edge_le.
Proof.
  split.
  - intros a. right. split; [done|]. right. split; [done|]. reflexivity.
  - intros a b c. unfold edge_le.
    intros [?|[Hs1 [?|[Hd1 ?]]]] [?|[Hs2 [?|[Hd2 ?]]]];
      rewrite ?Hs1, ?Hd1 in *; rewrite <-?Hs2, <-?Hd2 in *; auto.
    + left. by etrans.
    + right. split; [done|]. left. by etrans.
    + right. split; [done|]. right. split; [done|]. by etrans.
Qed.

Global Instance edge_le_antisym : AntiSymm (=) edge_le.
Proof.
  intros a b. unfold edge_le.
  intros [H1|[Hs1 [H1|[Hd1 H1]]]] [H2|[Hs2 [H2|[Hd2 H2]]]]; try less_absurd.
  apply edge_ext.
  - by apply injective_projections.
  - by apply (anti_symm opt_less_eq).
Qed.

Lemma edge_le_total a b : edge_le a b ∨ edge_le b a.
Proof.
  unfold edge_le.
  destruct (trichotomy less (get_nodes a).1 (get_nodes b).1) as [?|[Hs|?]]; auto.
  destruct (trichotomy less (get_nodes a).2 (get_nodes b).2) as [?|[Hd|?]]; auto.
  destruct (opt_less_eq_total (get_weight a) (get_weight b)); auto 10.
Qed.

Lemma sort_key_asym a b : sort_key a b = true → sort_key b a = false.
Proof.
  intros Hab. apply sort_key_false.
  destruct (edge_le_total a b) as [|Hba]; [done|].
  apply sort_key_false in Hba. congruence.
Qed.

(** ** sortedges *)

Lemma sorted_by_I3 h g :
  sorted_by (λ x y, sort_key (deref h x) (deref h y)) (edges_ g) ↔ I3 h g.
Proof.
  unfold sorted_by, I3, view. rewrite <-Sorted_fmap_iff.
  split; apply Sorted_ind; try constructor; try done.
  all: match goal with H : HdRel _ _ _ |- _ => destruct H; constructor end.
  all: by apply sort_key_false.
Qed.

Lemma sortedges_nodes h g : nodes_ (sortedges h g) = nodes_ g.
Proof. done. Qed.

Lemma sortedges_perm h g : edges_ (sortedges h g) ≡ₚ edges_ g.
Proof. apply std_sort_perm. Qed.

Lemma sortedges_view h g :
  view h (sortedges h g) = std_sort sort_key (view h g).
Proof. unfold view, sortedges; simpl. apply (std_sort_fmap (deref h)). Qed.

Lemma sortedges_view_perm h g : view h (sortedges h g) ≡ₚ view h g.
Proof. unfold view. by rewrite sortedges_perm. Qed.

(** [sortedges] establishes I3, whatever the vector held. *)
Lemma sortedges_I3 h g : I3 h (sortedges h g).
Proof.
  apply sorted_by_I3. apply std_sort_sorted.
  intros x y. apply sort_key_asym.
Qed.

(** On a graph that satisfies I3 it changes nothing. *)
Lemma sortedges_id h g : I3 h g → sortedges h g = g.
Proof.
  intros HI3. destruct g as [ns es]. unfold sortedges; simpl. f_equal.
  apply std_sort_sorted_id. by apply (sorted_by_I3 h (Graph ns es)).
Qed.

(** Every sorted arrangement of the pointers shows the same sequence of
    edges. *)
Lemma view_sorted_unique h g es :
  es ≡ₚ edges_ g →
  sorted_by (λ x y, sort_key (deref h x) (deref h y)) es →
  deref h <$> es = view h (sortedges h g).
Proof.
  intros Hperm Hsorted.
  apply (Sorted_unique edge_le).
  - by apply (sorted_by_I3 h (Graph (nodes_ g) es)).
  - apply sortedges_I3.
  - rewrite sortedges_view_perm. unfold view. by rewrite Hperm.
Qed.

(** ** The store *)

Lemma deref_app_l h obj e : e < length h → deref (h ++ [obj]) e = deref h e.
Proof. intros. unfold deref. by rewrite lookup_total_app_l. Qed.

Lemma deref_app_new h obj : deref (h ++ [obj]) (length h) = obj.
Proof. unfold deref. by rewrite list_lookup_total_middle. Qed.

Lemma view_app_l h obj g :
  Forall (λ e, e < length h) (edges_ g) → view (h ++ [obj]) g = view h g.
Proof.
  unfold view. intros Hb. apply Forall_fmap_ext_1.
  eapply Forall_impl; [done|]. intros e ?. by apply deref_app_l.
Qed.

(** ** find *)

Lemma edge_matches a src dst weight :
  bool_decide ((get_nodes a).1 = src) && bool_decide ((get_nodes a).2 = dst)
    && bool_decide (get_weight a = weight) = bool_decide (a = make_edge src dst weight).
Proof.
  destruct a, weight; simpl; repeat case_bool_decide; simplify_eq; done.
Qed.

Lemma find_in_le h es src dst weight : find_in h es src dst weight ≤ length es.
Proof.
  induction es as [|e es IH]; simpl; [lia|].
  rewrite edge_matches. case_bool_decide; lia.
Qed.

(** [find] returns [edges_.end()] exactly when no edge matches. *)
Lemma find_in_end h es src dst weight :
  find_in h es src dst weight = length es ↔
  make_edge src dst weight ∉ deref h <$> es.
Proof.
  induction es as [|e es IH]; csimpl.
  { split; [intros _; apply not_elem_of_nil|done]. }
  rewrite edge_matches, not_elem_of_cons. case_bool_decide as Hm.
  - split; [done|]. intros [? _]. congruence.
  - rewrite <-IH. split; [intros [=]; by auto|]. intros [_ ->]. done.
Qed.

(** Otherwise it returns the first position that matches. *)
Lemma find_in_first h es src dst weight i :
  find_in h es src dst weight = i → i < length es →
  (deref h <$> es) !! i = Some (make_edge src dst weight)
  ∧ make_edge src dst weight ∉ deref h <$> take i es.
Proof.
  revert i. induction es as [|e es IH]; csimpl; intros i Hi Hlt; [lia|].
  rewrite edge_matches in Hi. case_bool_decide as Hm.
  - subst i. simpl. split; [by rewrite Hm|apply not_elem_of_nil].
  - destruct i as [|i]; [done|]. injection Hi as Hi.
    destruct (IH i Hi ltac:(lia)) as [H1 H2]. csimpl.
    split; [done|]. rewrite not_elem_of_cons. split; [congruence|done].
Qed.

Lemma find_end h g src dst weight :
  find h g src dst weight = edges_end g ↔ ¬ has_edge h g src dst weight.
Proof. apply find_in_end. Qed.

Lemma is_node_true g value : is_node g value = true ↔ value ∈ nodes_ g.
Proof. unfold is_node. by rewrite bool_decide_eq_true. Qed.

Lemma is_node_false g value : is_node g value = false ↔ value ∉ nodes_ g.
Proof. unfold is_node. by rewrite bool_decide_eq_false. Qed.

Lemma both_nodes_false g src dst :
  is_node g src && is_node g dst = false ↔ src ∉ nodes_ g ∨ dst ∉ nodes_ g.
Proof. by rewrite andb_false_iff, !is_node_false. Qed.

Lemma both_nodes_true g src dst :
  is_node g src && is_node g dst = true ↔ src ∈ nodes_ g ∧ dst ∈ nodes_ g.
Proof. by rewrite andb_true_iff, !is_node_true. Qed.

(** ** insert_edge *)

(** C2: [insert_edge] throws when an end is no node; returns false and
    changes nothing when the very edge is there; otherwise it makes the
    weighted or unweighted object, adds it, sorts, and returns true. *)
Theorem C2_insert_edge h g src dst weight :
  owned h g →
  (src ∉ nodes_ g ∨ dst ∉ nodes_ g →
     insert_edge h g src dst weight
     = (Throw "Cannot call gdwg::graph<N, E>::insert_edge when either src or dst node does not exist",
        h, g))
  ∧ (src ∈ nodes_ g → dst ∈ nodes_ g → has_edge h g src dst weight →
     insert_edge h g src dst weight = (Ret false, h, g))
  ∧ (src ∈ nodes_ g → dst ∈ nodes_ g → ¬ has_edge h g src dst weight →
     ∃ h' g', insert_edge h g src dst weight = (Ret true, h', g')
       ∧ h' = h ++ [make_edge src dst weight]
       ∧ (is_weighted (make_edge src dst weight) = true ↔ is_Some weight)
       ∧ nodes_ g' = nodes_ g
       ∧ view h' g' ≡ₚ view h g ++ [make_edge src dst weight]
       ∧ I3 h' g').
Proof.
  intros [_ Hbound]. unfold insert_edge. split_and!.
  - intros Hn. apply both_nodes_false in Hn. by rewrite Hn.
  - intros Hs Hd Hhas. rewrite (proj2 (both_nodes_true g src dst)) by done.
    rewrite bool_decide_eq_false_2; [done|]. rewrite find_end. by auto.
  - intros Hs Hd Hhas. rewrite (proj2 (both_nodes_true g src dst)) by done.
    rewrite bool_decide_eq_true_2 by (by apply find_end).
    exists (h ++ [make_edge src dst weight]).
    exists (sortedges (h ++ [make_edge src dst weight])
              (Graph (nodes_ g) (edges_ g ++ [length h]))).
    split.
    { destruct weight; reflexivity. }
    split; [done|]. split.
    { destruct weight; simpl; split; try done; by intros [? [=]]. }
    split; [done|]. split; [|apply sortedges_I3].
    rewrite sortedges_view_perm. unfold view at 1; simpl.
    rewrite fmap_app; simpl. rewrite deref_app_new.
    fold (view (h ++ [make_edge src dst weight]) g).
    by rewrite view_app_l.
Qed.

(** ** I3 *)

Lemma I3_nil h ns : I3 h (Graph ns []).
Proof. constructor. Qed.

(** C3: I3, the edges being in ascending order of source, then
    destination, then weight with the absent weight first, holds after
    every constructor, and every modifier ([insert_node], [insert_edge],
    [replace_node], [merge_replace_node], [erase_node], the three
    [erase_edge], [clear]) of a graph that satisfies I3 leaves it
    satisfying I3; so does copying. *)
Theorem C3_I3_preserved h g :
  I3 h graph_default
  ∧ (∀ il, I3 h (graph_of_list il))
  ∧ (I3 h g →
     I3 h (graph_copy g)
     ∧ (∀ value, I3 (insert_node h g value).1.2 (insert_node h g value).2)
     ∧ (∀ src dst weight,
          I3 (insert_edge h g src dst weight).1.2 (insert_edge h g src dst weight).2)
     ∧ (∀ old_data new_data,
          I3 (replace_node h g old_data new_data).1.2 (replace_node h g old_data new_data).2)
     ∧ (∀ old_data new_data,
          I3 (merge_replace_node h g old_data new_data).1.2
             (merge_replace_node h g old_data new_data).2)
     ∧ (∀ value, I3 (erase_node h g value).1.2 (erase_node h g value).2)
     ∧ (∀ src dst weight,
          I3 (erase_edge h g src dst weight).1.2 (erase_edge h g src dst weight).2)
     ∧ (∀ i, I3 (erase_edge_at h g i).1.2 (erase_edge_at h g i).2)
     ∧ (∀ i s, I3 (erase_edge_range h g i s).1.2 (erase_edge_range h g i s).2)
     ∧ I3 (clear h g).1 (clear h g).2).
Proof.
  split; [apply I3_nil|]. split; [intros; apply I3_nil|].
  intros HI3. split_and!.
  - by destruct g.
  - intros value. unfold insert_node. by case_bool_decide.
  - intros src dst weight. unfold insert_edge.
    destruct (is_node g src && is_node g dst); [|done].
    case_bool_decide; [|done].
    destruct weight; simpl; apply sortedges_I3.
  - intros old_data new_data. unfold replace_node.
    destruct (is_node g old_data); [|done].
    destruct (is_node g new_data); simpl; [done|apply sortedges_I3].
  - intros old_data new_data. unfold merge_replace_node.
    destruct (is_node g old_data && is_node g new_data); [|done].
    destruct (merge_loop _ _ _ _ _) as [h' es]. simpl. apply sortedges_I3.
  - intros value. unfold erase_node.
    destruct (is_node g value); simpl; [apply sortedges_I3|done].
  - intros src dst weight. unfold erase_edge.
    destruct (is_node g src && is_node g dst); [|done].
    case_bool_decide; simpl; [done|apply sortedges_I3].
  - intros i. apply sortedges_I3.
  - intros i s. apply sortedges_I3.
  - apply I3_nil.
Qed.

(** ** Exceptions *)

(** C5: when [insert_edge], [replace_node], [merge_replace_node] or
    [erase_edge(src, dst, weight)] throws, neither the store of edges nor
    the graph, its node set and its vector of edges, has changed. *)
Theorem C5_throw_unchanged h g :
  (∀ src dst weight,
     is_throw (insert_edge h g src dst weight).1.1 = true →
     (insert_edge h g src dst weight).1.2 = h ∧ (insert_edge h g src dst weight).2 = g)
  ∧ (∀ old_data new_data,
     is_throw (replace_node h g old_data new_data).1.1 = true →
     (replace_node h g old_data new_data).1.2 = h
     ∧ (replace_node h g old_data new_data).2 = g)
  ∧ (∀ old_data new_data,
     is_throw (merge_replace_node h g old_data new_data).1.1 = true →
     (merge_replace_node h g old_data new_data).1.2 = h
     ∧ (merge_replace_node h g old_data new_data).2 = g)
  ∧ (∀ src dst weight,
     is_throw (erase_edge h g src dst weight).1.1 = true →
     (erase_edge h g src dst weight).1.2 = h ∧ (erase_edge h g src dst weight).2 = g).
Proof.
  split_and!.
  - intros src dst weight. unfold insert_edge.
    destruct (is_node g src && is_node g dst); [|done].
    case_bool_decide; [|done]. by destruct weight.
  - intros old_data new_data. unfold replace_node.
    destruct (is_node g old_data); [|done]. by destruct (is_node g new_data).
  - intros old_data new_data. unfold merge_replace_node.
    destruct (is_node g old_data && is_node g new_data); [|done].
    by destruct (merge_loop _ _ _ _ _).
  - intros src dst weight. unfold erase_edge.
    destruct (is_node g src && is_node g dst); [|done]. by case_bool_decide.
Qed.

(** ** Renaming in place *)

Lemma rename_at_length h e old_data new_data :
  length (rename_at h e old_data new_data) = length h.
Proof.
  unfold rename_at, replace_at.
  repeat case_bool_decide; by rewrite ?length_insert.
Qed.

(** The object at [e] is renamed at both ends. *)
Lemma rename_at_eq h e old_data new_data :
  e < length h →
  deref (rename_at h e old_data new_data) e = rename old_data new_data (deref h e).
Proof.
  intros He. unfold rename_at, replace_at, deref.
  destruct (h !!! e) as [s d w|s d] eqn:Hobj; simpl;
    repeat case_bool_decide; subst;
    rewrite ?list_lookup_total_insert_eq by (by rewrite ?length_insert);
    rewrite ?Hobj; simpl; repeat case_decide; done.
Qed.

(** Every other object is as before. *)
Lemma rename_at_ne h e e' old_data new_data :
  e ≠ e' → deref (rename_at h e old_data new_data) e' = deref h e'.
Proof.
  intros Hne. unfold rename_at, replace_at, deref.
  repeat case_bool_decide; by rewrite ?list_lookup_total_insert_ne.
Qed.

Lemma rename_at_fmap_ne h e old_data new_data es :
  e ∉ es → deref (rename_at h e old_data new_data) <$> es = deref h <$> es.
Proof.
  intros Hn. apply Forall_fmap_ext_1, Forall_forall.
  intros e' He'. apply rename_at_ne. by intros ->.
Qed.

(** Renaming with [old_data] for new changes nothing in the store. *)
Lemma rename_at_same h e v : rename_at h e v v = h.
Proof.
  unfold rename_at, replace_at, deref.
  assert (∀ k : list edge, <[e := k !!! e]> k = k) as Hid.
  { intros k. apply list_insert_id'. intros ?. by apply list_lookup_lookup_total_lt. }
  destruct (h !!! e) as [s d w|s d] eqn:Hobj; simpl;
    repeat case_bool_decide; subst; simpl;
    rewrite <-?Hobj, ?Hid; try done; rewrite Hobj; simpl; rewrite <-Hobj; by rewrite ?Hid.
Qed.

Lemma rename_same v a : rename v v a = a.
Proof. destruct a; simpl; repeat case_decide; by subst. Qed.

(** The loop of [replace_node]. *)
Lemma rename_loop_spec old_data new_data es h :
  NoDup es → Forall (λ e, e < length h) es →
  let h' := foldl (λ h e, rename_at h e old_data new_data) h es in
  length h' = length h
  ∧ deref h' <$> es = rename old_data new_data <$> (deref h <$> es)
  ∧ (∀ e, e ∉ es → deref h' e = deref h e).
Proof.
  revert h. induction es as [|e es IH]; intros h Hnd Hb; csimpl.
  { done. }
  apply NoDup_cons in Hnd as [Hne Hnd]. apply Forall_cons in Hb as [He Hb].
  destruct (IH (rename_at h e old_data new_data) Hnd) as (Hlen & Hval & Hoth).
  { by rewrite rename_at_length. }
  split; [by rewrite Hlen, rename_at_length|]. split.
  - f_equal.
    + rewrite Hoth by done. by apply rename_at_eq.
    + etrans; [exact Hval|]. by rewrite rename_at_fmap_ne.
  - intros e' He'. apply not_elem_of_cons in He' as [? ?].
    rewrite Hoth by done. by apply rename_at_ne.
Qed.

(** C6: [replace_node] throws when [old_data] is no node and returns
    false, changing nothing, when [new_data] is one; otherwise the node
    set loses [old_data] and gains [new_data], every edge is renamed at
    each end that was [old_data], none is dropped, the vector is sorted
    again, and the result is true. *)
Theorem C6_replace_node h g old_data new_data :
  owned h g →
  (old_data ∉ nodes_ g →
     replace_node h g old_data new_data
     = (Throw "Cannot call gdwg::graph<N, E>::replace_node on a node that doesn't exist",
        h, g))
  ∧ (old_data ∈ nodes_ g → new_data ∈ nodes_ g →
     replace_node h g old_data new_data = (Ret false, h, g))
  ∧ (old_data ∈ nodes_ g → new_data ∉ nodes_ g →
     ∃ h' g', replace_node h g old_data new_data = (Ret true, h', g')
       ∧ nodes_ g' = {[new_data]} ∪ (nodes_ g ∖ {[old_data]})
       ∧ view h' g' ≡ₚ rename old_data new_data <$> view h g
       ∧ length (view h' g') = length (view h g)
       ∧ I3 h' g').
Proof.
  intros [Hnd Hb]. unfold replace_node. split_and!.
  - intros Hn. apply is_node_false in Hn. by rewrite Hn.
  - intros Ho Hn. apply is_node_true in Ho, Hn. by rewrite Ho, Hn.
  - intros Ho Hn. apply is_node_true in Ho. apply is_node_false in Hn.
    rewrite Ho, Hn. simpl. do 2 eexists. split; [done|].
    destruct (rename_loop_spec old_data new_data (edges_ g) h Hnd Hb) as (_ & Hval & _).
    assert (view (foldl (λ h e, rename_at h e old_data new_data) h (edges_ g))
              (sortedges (foldl (λ h e, rename_at h e old_data new_data) h (edges_ g))
                 (Graph ({[new_data]} ∪ nodes_ g ∖ {[old_data]}) (edges_ g)))
            ≡ₚ rename old_data new_data <$> view h g) as Hperm.
    { rewrite sortedges_view_perm. unfold view at 1. simpl. by rewrite Hval. }
    split; [done|]. split; [done|]. split.
    + by rewrite Hperm, length_fmap.
    + apply sortedges_I3.
Qed.

(** ** Comparison and copies *)

(** Graphs with the same nodes and the same pointers, in whatever
    order, compare equal. *)
Lemma graph_eqb_perm h g other :
  nodes_ other = nodes_ g → edges_ other ≡ₚ edges_ g → graph_eqb h g other = true.
Proof.
  intros Hn Hp. unfold graph_eqb. rewrite Hn.
  rewrite !bool_decide_eq_true_2 by (by rewrite ?Hp). simpl.
  apply andb_true_iff. split; apply forallb_forall.
  - intros n Hin%list_elem_of_In%elem_of_elements. by apply bool_decide_eq_true_2.
  - intros e He%list_elem_of_In. apply negb_true_iff, bool_decide_eq_false_2.
    rewrite find_end. intros Hno. apply Hno. unfold has_edge.
    rewrite make_edge_get. apply list_elem_of_fmap. exists e. by rewrite <-Hp.
Qed.

(** A copy compares equal to the graph it was made from. *)
Lemma copy_equal h g : graph_eqb h g (graph_copy g) = true.
Proof. by apply graph_eqb_perm. Qed.

(** It holds the very pointers of that graph. *)
Lemma copy_shares g : edges_ (graph_copy g) = edges_ g.
Proof. done. Qed.

(** ** merge_replace_node *)

Lemma find_in_app h es1 es2 src dst weight :
  find_in h (es1 ++ es2) src dst weight =
    if decide (make_edge src dst weight ∈ deref h <$> es1)
    then find_in h es1 src dst weight
    else length es1 + find_in h es2 src dst weight.
Proof.
  induction es1 as [|e es1 IH].
  { case_decide as Hin; [by apply elem_of_nil in Hin|done]. }
  rewrite fmap_cons. simpl. rewrite edge_matches, IH.
  case_bool_decide as Hm; repeat case_decide; try done.
  all: exfalso;
    repeat match goal with
    | H : _ ∉ _ :: _ |- _ => apply not_elem_of_cons in H
    | H : _ ∈ _ :: _ |- _ => apply elem_of_cons in H
    end; intuition congruence.
Qed.

(** The test [first_it != e] of the loop: the edge at [e] is erased
    exactly when an edge before it has the same ends and weight. *)
Lemma merge_test h done e todo :
  let a := deref h e in
  find_in h (done ++ e :: todo) (get_nodes a).1 (get_nodes a).2 (get_weight a)
    = length done
  ↔ a ∉ deref h <$> done.
Proof.
  intros a. rewrite find_in_app, make_edge_get. case_decide as Hin.
  - split; [|done]. intros Hlen. by apply find_in_end in Hlen; rewrite make_edge_get in Hlen.
  - split; [done|]. intros _. simpl. rewrite edge_matches, make_edge_get.
    rewrite bool_decide_eq_true_2 by done. lia.
Qed.

Lemma keep_first_on_ext {A} (key1 key2 : A → edge) seen (todo : list A) :
  (∀ x, x ∈ todo → key1 x = key2 x) →
  keep_first_on key1 seen todo = keep_first_on key2 seen todo.
Proof.
  revert seen. induction todo as [|x todo IH]; intros seen Hext; simpl; [done|].
  rewrite (Hext x) by (by left).
  case_decide; [|f_equal]; apply IH; intros y Hy; apply Hext; by right.
Qed.

Lemma keep_first_on_sublist {A} (key : A → edge) seen (todo : list A) :
  keep_first_on key seen todo `sublist_of` todo.
Proof.
  revert seen. induction todo as [|x todo IH]; intros seen; simpl; [done|].
  case_decide; [by apply sublist_cons|by apply sublist_skip].
Qed.

Lemma fmap_keep_first_on {A} (key : A → edge) seen (todo : list A) :
  key <$> keep_first_on key seen todo = keep_first seen (key <$> todo).
Proof.
  revert seen. induction todo as [|x todo IH]; intros seen; csimpl; [done|].
  case_decide; csimpl; by rewrite IH.
Qed.

(** The loop of [merge_replace_node]: it renames the object at every
    pointer of [todo] and keeps, after [done], the pointers whose renamed
    edge was not met before. *)
Lemma merge_loop_spec old_data new_data todo h done :
  NoDup (done ++ todo) → Forall (λ e, e < length h) todo →
  let r := merge_loop h done todo old_data new_data in
  length r.1 = length h
  ∧ r.2 = done ++ keep_first_on (λ e, rename old_data new_data (deref h e))
                    (deref h <$> done) todo
  ∧ (∀ e, e ∉ todo → deref r.1 e = deref h e)
  ∧ (∀ e, e ∈ todo → deref r.1 e = rename old_data new_data (deref h e)).
Proof.
  revert h done. induction todo as [|e todo IH]; intros h done Hnd Hb; csimpl.
  { rewrite app_nil_r. split_and!; try done. by intros e ?%elem_of_nil. }
  apply Forall_cons in Hb as [He Hb].
  apply NoDup_app in Hnd as (Hnd1 & Hdisj & Hnd2).
  apply NoDup_cons in Hnd2 as [Hne Hnd2].
  assert (e ∉ done) as Hed by (intros ?; eapply Hdisj; [done|by left]).
  set (h1 := rename_at h e old_data new_data).
  assert (deref h1 e = rename old_data new_data (deref h e)) as Hv
    by (by apply rename_at_eq).
  assert (deref h1 <$> done = deref h <$> done) as Hdone
    by (by apply rename_at_fmap_ne).
  assert (∀ e', e' ∈ todo → deref h1 e' = deref h e') as Htodo.
  { intros e' He'. apply rename_at_ne. by intros ->. }
  assert (Forall (λ e, e < length h1) todo) as Hb1
    by (unfold h1; by rewrite rename_at_length).
  assert (∀ seen, keep_first_on (λ e, rename old_data new_data (deref h1 e)) seen todo
                  = keep_first_on (λ e, rename old_data new_data (deref h e)) seen todo)
    as Hkey.
  { intros seen. apply keep_first_on_ext. intros e' He'. by rewrite Htodo. }
  pose proof (merge_test h1 done e todo) as Htest. cbv zeta in Htest.
  case_bool_decide as Hfirst; simpl.
  - apply Htest in Hfirst. rewrite Hdone, Hv in Hfirst.
    rewrite decide_False by done.
    destruct (IH h1 (done ++ [e])) as (Hlen & Hptr & Hoth & Hren); [|done|].
    { rewrite <-(assoc (++)). simpl.
      apply NoDup_app. split_and!; [done|done|by apply NoDup_cons]. }
    split; [by rewrite Hlen; unfold h1; rewrite rename_at_length|]. split.
    { rewrite Hptr, Hkey, fmap_app, Hdone. csimpl. rewrite Hv.
      by rewrite <-(assoc (++)). }
    split.
    + intros e' He'. apply not_elem_of_cons in He' as [? ?].
      rewrite Hoth by done. by apply rename_at_ne.
    + intros e' [->|He']%elem_of_cons.
      * by rewrite Hoth.
      * rewrite Hren by done. by rewrite Htodo.
  - assert (rename old_data new_data (deref h e) ∈ deref h <$> done) as Hin.
    { destruct (decide (rename old_data new_data (deref h e) ∈ deref h <$> done)); [done|].
      exfalso. apply Hfirst, Htest. by rewrite Hdone, Hv. }
    rewrite decide_True by done.
    destruct (IH h1 done) as (Hlen & Hptr & Hoth & Hren); [|done|].
    { apply NoDup_app. split_and!; [done| |done].
      intros x ??. eapply Hdisj; [done|by right]. }
    split; [by rewrite Hlen; unfold h1; rewrite rename_at_length|]. split.
    { by rewrite Hptr, Hkey, Hdone. }
    split.
    + intros e' He'. apply not_elem_of_cons in He' as [? ?].
      rewrite Hoth by done. by apply rename_at_ne.
    + intros e' [->|He']%elem_of_cons.
      * by rewrite Hoth.
      * rewrite Hren by done. by rewrite Htodo.
Qed.

(** What the graph shows after the loop. *)
Lemma merge_loop_view old_data new_data h es :
  NoDup es → Forall (λ e, e < length h) es →
  let r := merge_loop h [] es old_data new_data in
  deref r.1 <$> r.2 = keep_first [] (rename old_data new_data <$> (deref h <$> es)).
Proof.
  intros Hnd Hb.
  destruct (merge_loop_spec old_data new_data es h []) as (_ & Hptr & _ & Hren);
    [done..|].
  cbv zeta. rewrite Hptr. simpl.
  rewrite <-list_fmap_compose, <-fmap_keep_first_on.
  apply Forall_fmap_ext_1, Forall_forall. intros e He.
  apply Hren. by eapply elem_of_sublist, keep_first_on_sublist.
Qed.

(** With [old_data] for new and no duplicates, the loop keeps every
    pointer and writes nothing new. *)
Lemma merge_loop_same v todo h done :
  NoDup (deref h <$> (done ++ todo)) →
  merge_loop h done todo v v = (h, done ++ todo).
Proof.
  revert done. induction todo as [|e todo IH]; intros done Hnd; simpl.
  { by rewrite app_nil_r. }
  rewrite rename_at_same.
  pose proof (merge_test h done e todo) as Htest. cbv zeta in Htest.
  rewrite bool_decide_eq_true_2; simpl.
  - rewrite IH; [by rewrite <-(assoc (++))|]. by rewrite <-(assoc (++)).
  - apply Htest. rewrite fmap_app, fmap_cons in Hnd.
    apply NoDup_app in Hnd as (_ & Hdisj & _).
    intros Hin. eapply Hdisj; [done|by left].
Qed.

(** What [keep_first] keeps has no duplicates and misses no edge. *)
Lemma keep_first_NoDup seen todo :
  NoDup seen → NoDup (seen ++ keep_first seen todo).
Proof.
  revert seen. induction todo as [|a todo IH]; intros seen Hnd; simpl.
  { by rewrite app_nil_r. }
  case_decide as Hin; [by apply IH|].
  rewrite cons_middle, (assoc (++)). apply IH.
  apply NoDup_app. split_and!; [done| |apply NoDup_singleton].
  intros x Hx ->%list_elem_of_singleton. done.
Qed.

Lemma keep_first_elem_of seen todo a :
  a ∈ seen ++ keep_first seen todo ↔ a ∈ seen ∨ a ∈ todo.
Proof.
  revert seen. induction todo as [|b todo IH]; intros seen; simpl.
  { rewrite app_nil_r. set_solver. }
  case_decide as Hin.
  - rewrite IH. set_solver.
  - rewrite cons_middle, (assoc (++)), IH. set_solver.
Qed.

(** ** edges *)

Lemma filter_fmap {A B} (f : A → B) (P : B → Prop) `{!∀ x, Decision (P x)}
    (l : list A) :
  filter P (f <$> l) = f <$> filter (λ x, P (f x)) l.
Proof.
  induction l as [|x l IH]; csimpl; [done|].
  rewrite !filter_cons. case_decide; csimpl; by rewrite IH.
Qed.

(** [edges] on two nodes returns the edges between them, sorted by
    weight. *)
Lemma edges_view h g src dst :
  src ∈ nodes_ g → dst ∈ nodes_ g →
  ∃ l, edges h g src dst = Ret l
     ∧ deref h <$> l = std_sort sort_weight (filter (from_to src dst) (view h g)).
Proof.
  intros Hs Hd. unfold edges.
  rewrite (proj2 (both_nodes_true g src dst)) by done.
  eexists. split; [done|].
  rewrite (std_sort_fmap (deref h) sort_weight). f_equal.
  unfold view. by rewrite filter_fmap.
Qed.

Lemma edges_length h g src dst :
  src ∈ nodes_ g → dst ∈ nodes_ g →
  ∃ l, edges h g src dst = Ret l
     ∧ length l = length (filter (from_to src dst) (view h g)).
Proof.
  intros Hs Hd. destruct (edges_view h g src dst Hs Hd) as (l & Hl & Hval).
  exists l. split; [done|].
  by rewrite <-(length_fmap (deref h)), Hval, std_sort_length.
Qed.

(** C4: [merge_replace_node] throws when [old_data] or [new_data] is no
    node.  Otherwise every edge is renamed at each end that was
    [old_data], and an edge that then duplicates an earlier one is
    dropped; the node set, [old_data] included, stays.  With nodes
    A, B, C and the edges A -> C and B -> C of one weight,
    [merge_replace_node(A, B)] leaves one edge from B to C. *)
Theorem C4_merge_replace_node h g old_data new_data :
  owned h g →
  (old_data ∉ nodes_ g ∨ new_data ∉ nodes_ g →
     merge_replace_node h g old_data new_data
     = (Throw "Cannot call gdwg::graph<N, E>::merge_replace_node on old or new data if they don't exist in the graph",
        h, g))
  ∧ (old_data ∈ nodes_ g → new_data ∈ nodes_ g →
     ∃ h' g', merge_replace_node h g old_data new_data = (Ret (), h', g')
       ∧ nodes_ g' = nodes_ g
       ∧ old_data ∈ nodes_ g'
       ∧ edges_ g' ≡ₚ keep_first_on (λ e, rename old_data new_data (deref h e)) []
                         (edges_ g)
       ∧ view h' g' ≡ₚ keep_first [] (rename old_data new_data <$> view h g)
       ∧ I3 h' g')
  ∧ (∀ C w,
     nodes_ g = {[old_data; new_data; C]} → old_data ≠ C →
     view h g ≡ₚ [weighted_edge old_data C w; weighted_edge new_data C w] →
     ∃ h' g' l, merge_replace_node h g old_data new_data = (Ret (), h', g')
       ∧ edges h' g' new_data C = Ret l
       ∧ length l = 1).
Proof.
  intros [Hnd Hb].
  assert (old_data ∈ nodes_ g → new_data ∈ nodes_ g →
     ∃ h' g', merge_replace_node h g old_data new_data = (Ret (), h', g')
       ∧ nodes_ g' = nodes_ g
       ∧ old_data ∈ nodes_ g'
       ∧ edges_ g' ≡ₚ keep_first_on (λ e, rename old_data new_data (deref h e)) []
                         (edges_ g)
       ∧ view h' g' ≡ₚ keep_first [] (rename old_data new_data <$> view h g)
       ∧ I3 h' g') as Hmain.
  { intros Ho Hn. unfold merge_replace_node.
    rewrite (proj2 (both_nodes_true g old_data new_data)) by done.
    pose proof (merge_loop_view old_data new_data h (edges_ g) Hnd Hb) as Hval.
    destruct (merge_loop_spec old_data new_data (edges_ g) h []) as (_ & Hptr & _);
      [done..|].
    destruct (merge_loop h [] (edges_ g) old_data new_data) as [h' es].
    simpl in Hval, Hptr. do 2 eexists. split; [done|]. split; [done|]. split; [done|].
    split; [by rewrite sortedges_perm; simpl; rewrite Hptr|].
    split; [|apply sortedges_I3].
    rewrite sortedges_view_perm. unfold view at 1. simpl. by rewrite Hval. }
  split_and!; [|done|].
  - intros Hn. unfold merge_replace_node.
    apply both_nodes_false in Hn. by rewrite Hn.
  - intros C w Hnodes HC Hview.
    destruct Hmain as (h' & g' & Hrun & Hns & _ & _ & Hperm & _);
      [rewrite Hnodes; set_solver..|].
    assert (rename old_data new_data <$> view h g
            = [weighted_edge new_data C w; weighted_edge new_data C w]) as Hren.
    { symmetry in Hview. apply Permutation_length_2_inv in Hview as [-> | ->];
        csimpl; repeat case_decide; congruence. }
    rewrite Hren in Hperm. simpl in Hperm.
    rewrite decide_True in Hperm by (by left).
    apply Permutation_singleton_r in Hperm.
    destruct (edges_length h' g' new_data C) as (l & Hl & Hlen);
      [rewrite Hns, Hnodes; set_solver..|].
    exists h', g', l. split; [done|]. split; [done|].
    rewrite Hlen, Hperm. rewrite filter_cons, decide_True by done. done.
Qed.

(** C10: on a graph without duplicate edges [merge_replace_node(v, v)]
    writes no object anew and keeps every edge and the node set: the
    graph compares equal to what it was, and a graph that satisfies I3 is
    left exactly as it was. *)
Theorem C10_merge_replace_same h g v :
  I2 h g → v ∈ nodes_ g →
  ∃ g', merge_replace_node h g v v = (Ret (), h, g')
    ∧ nodes_ g' = nodes_ g
    ∧ edges_ g' ≡ₚ edges_ g
    ∧ view h g' ≡ₚ view h g
    ∧ graph_eqb h g g' = true
    ∧ (I3 h g → g' = g).
Proof.
  intros HI2 Hv. unfold merge_replace_node.
  rewrite (proj2 (both_nodes_true g v v)) by done.
  rewrite merge_loop_same by done. simpl.
  eexists. split; [done|]. split; [done|].
  split; [apply (sortedges_perm h (Graph (nodes_ g) (edges_ g)))|].
  split; [apply (sortedges_view_perm h (Graph (nodes_ g) (edges_ g)))|].
  split; [apply graph_eqb_perm; [done|apply (sortedges_perm h (Graph (nodes_ g) (edges_ g)))]|].
  intros HI3. destruct g as [ns es]. by apply sortedges_id.
Qed.

(** ** erase_edge by position *)

Lemma Sorted_sublist {A} (R : relation A) `{!Transitive R} (l1 l2 : list A) :
  l1 `sublist_of` l2 → Sorted R l2 → Sorted R l1.
Proof.
  intros Hsub Hs. apply Sorted_StronglySorted in Hs; [|done].
  apply StronglySorted_Sorted.
  induction Hsub as [|x l1 l2 Hsub IH|x l1 l2 Hsub IH]; [done| |].
  - apply StronglySorted_cons in Hs as [Hall Hs].
    apply StronglySorted_cons. split; [|by apply IH].
    apply Forall_forall. intros y Hy.
    eapply Forall_forall in Hall; [done|]. by eapply elem_of_sublist.
  - apply StronglySorted_cons in Hs as [_ Hs]. by apply IH.
Qed.

(** Erasing from a sorted vector leaves it sorted. *)
Lemma I3_sublist h g es :
  es `sublist_of` edges_ g → I3 h g → I3 h (Graph (nodes_ g) es).
Proof.
  unfold I3, view. simpl. intros Hsub.
  apply (Sorted_sublist edge_le). by apply fmap_sublist.
Qed.

(** So every sorted arrangement of what is left of a sorted vector, the
    one [std::sort] picks among them, shows the edges that are left in
    the order they had. *)
Lemma sorted_sublist_view h g es0 es :
  es0 `sublist_of` edges_ g → I3 h g →
  es ≡ₚ es0 →
  sorted_by (λ x y, sort_key (deref h x) (deref h y)) es →
  deref h <$> es = deref h <$> es0.
Proof.
  intros Hsub HI3 Hperm Hs. apply (Sorted_unique edge_le).
  - by apply (sorted_by_I3 h (Graph (nodes_ g) es)).
  - apply (I3_sublist h g es0 Hsub HI3).
  - by rewrite Hperm.
Qed.

Lemma sortedges_sublist_view h g ns es0 :
  es0 `sublist_of` edges_ g → I3 h g →
  view h (sortedges h (Graph ns es0)) = deref h <$> es0.
Proof.
  intros Hsub HI3. apply (sorted_sublist_view h g es0); [done..| |].
  - apply sortedges_perm.
  - apply (sorted_by_I3 h (sortedges h (Graph ns es0))), sortedges_I3.
Qed.

(** Two pointers of a graph without duplicates that show the same edge
    are the same pointer. *)
Lemma fmap_NoDup_inj {A B} (f : A → B) (l : list A) (x y : A) :
  NoDup (f <$> l) → x ∈ l → y ∈ l → f x = f y → x = y.
Proof.
  induction l as [|z l IH]; csimpl; intros Hnd Hx Hy Heq.
  { by apply elem_of_nil in Hx. }
  apply NoDup_cons in Hnd as [Hnot Hnd].
  apply elem_of_cons in Hx as [->|Hx]; apply elem_of_cons in Hy as [->|Hy].
  - done.
  - exfalso. apply Hnot. rewrite Heq. by apply list_elem_of_fmap_2.
  - exfalso. apply Hnot. rewrite <-Heq. by apply list_elem_of_fmap_2.
  - by apply IH.
Qed.

(** The pointers of a graph without duplicates have one sorted
    arrangement: there the result of [std::sort] is determined up to the
    pointers, on other graphs up to the edges they show
    ([view_sorted_unique]). *)
Lemma sorted_pointers_unique h g es1 es2 :
  I2 h g →
  es1 ≡ₚ edges_ g → es2 ≡ₚ edges_ g →
  sorted_by (λ x y, sort_key (deref h x) (deref h y)) es1 →
  sorted_by (λ x y, sort_key (deref h x) (deref h y)) es2 →
  es1 = es2.
Proof.
  intros HI2 Hp1 Hp2 Hs1 Hs2.
  assert (Transitive (λ x y, sort_key (deref h y) (deref h x) = false)) as Htrans.
  { intros x y z. rewrite !sort_key_false. apply transitivity. }
  apply (Sorted_unique_strong (λ x y, sort_key (deref h y) (deref h x) = false));
    [|exact Hs1|exact Hs2|by rewrite Hp1, Hp2].
  intros x y Hx Hy Hxy Hyx. apply sort_key_false in Hxy, Hyx.
  apply (fmap_NoDup_inj (deref h) (edges_ g)); [done| | |].
  - by rewrite <-Hp1.
  - by rewrite <-Hp2.
  - by apply (anti_symm edge_le).
Qed.

(** C7 (amended): on a graph that satisfies I3, erasing at a position
    that can be dereferenced removes the edge object at that position and
    no other, leaves the other edges in their order, and returns the
    position where the edge that followed now is; erasing a range removes
    the edges from the first position up to, not including, the second,
    and returns the position where the edge of the second position now
    is (the end, when the second position was the end).  This holds
    whatever order [std::sort] leaves equal edges in; on a graph without
    duplicates the pointers, too, keep their places. *)
Theorem C7_erase_edge_iterator h g :
  I3 h g →
  (∀ i, i < length (edges_ g) →
     ∃ g', erase_edge_at h g i = (i, h, g')
       ∧ nodes_ g' = nodes_ g
       ∧ edges_ g' ≡ₚ delete i (edges_ g)
       ∧ view h g' = delete i (view h g)
       ∧ view h g' !! i = view h g !! S i
       ∧ (∀ es, es ≡ₚ delete i (edges_ g) →
            sorted_by (λ x y, sort_key (deref h x) (deref h y)) es →
            deref h <$> es = delete i (view h g))
       ∧ (I2 h g → edges_ g' = delete i (edges_ g)))
  ∧ (∀ i s, i ≤ s → s ≤ length (edges_ g) →
     ∃ g', erase_edge_range h g i s = (i, h, g')
       ∧ nodes_ g' = nodes_ g
       ∧ edges_ g' ≡ₚ take i (edges_ g) ++ drop s (edges_ g)
       ∧ view h g' = take i (view h g) ++ drop s (view h g)
       ∧ view h g' !! i = view h g !! s
       ∧ (∀ es, es ≡ₚ take i (edges_ g) ++ drop s (edges_ g) →
            sorted_by (λ x y, sort_key (deref h x) (deref h y)) es →
            deref h <$> es = take i (view h g) ++ drop s (view h g))
       ∧ (I2 h g → edges_ g' = take i (edges_ g) ++ drop s (edges_ g))).
Proof.
  intros HI3. split.
  - intros i Hi. unfold erase_edge_at.
    pose proof (sublist_delete (edges_ g) i) as Hsub.
    assert (view h (sortedges h (Graph (nodes_ g) (delete i (edges_ g))))
            = delete i (view h g)) as Hview.
    { rewrite (sortedges_sublist_view h g) by done.
      unfold view. by rewrite list_fmap_delete. }
    eexists. split; [done|]. split; [done|].
    split; [apply sortedges_perm|]. split; [done|]. split; [|split].
    + rewrite Hview. by rewrite list_lookup_delete_ge.
    + intros es Hperm Hs. unfold view. rewrite <-list_fmap_delete.
      by apply (sorted_sublist_view h g).
    + intros _. rewrite sortedges_id; [done|]. by apply (I3_sublist h g).
  - intros i s His Hs. unfold erase_edge_range.
    assert (take i (edges_ g) ++ drop s (edges_ g) `sublist_of` edges_ g) as Hsub.
    { rewrite <-(take_drop i (edges_ g)) at 3.
      apply sublist_app; [done|].
      replace s with (i + (s - i)) by lia. rewrite <-drop_drop. apply sublist_drop. }
    assert (deref h <$> take i (edges_ g) ++ drop s (edges_ g)
            = take i (view h g) ++ drop s (view h g)) as Hfmap.
    { unfold view. by rewrite fmap_app, fmap_take, fmap_drop. }
    assert (view h (sortedges h (Graph (nodes_ g)
                      (take i (edges_ g) ++ drop s (edges_ g))))
            = take i (view h g) ++ drop s (view h g)) as Hview.
    { by rewrite (sortedges_sublist_view h g). }
    eexists. split; [done|]. split; [done|].
    split; [apply sortedges_perm|]. split; [done|]. split; [|split].
    + rewrite Hview.
      assert (length (view h g) = length (edges_ g)) as Hlen
        by (unfold view; apply length_fmap).
      rewrite lookup_app_r by (rewrite length_take_le; lia).
      rewrite length_take_le by lia. rewrite lookup_drop. f_equal. lia.
    + intros es Hperm Hsorted. rewrite <-Hfmap.
      by apply (sorted_sublist_view h g).
    + intros _. rewrite sortedges_id; [done|]. by apply (I3_sublist h g).
Qed.

(** ** Unweighted and weighted edges between the same nodes *)

Lemma owned_sortedges h g : owned h g → owned h (sortedges h g).
Proof.
  intros [Hnd Hb]. split.
  - by rewrite sortedges_perm.
  - by rewrite sortedges_perm.
Qed.

(** The successful path of [insert_edge]. *)
Lemma insert_edge_fresh h g src dst weight :
  owned h g → src ∈ nodes_ g → dst ∈ nodes_ g → ¬ has_edge h g src dst weight →
  ∃ h' g', insert_edge h g src dst weight = (Ret true, h', g')
    ∧ owned h' g'
    ∧ nodes_ g' = nodes_ g
    ∧ view h' g' ≡ₚ view h g ++ [make_edge src dst weight].
Proof.
  intros [Hnd Hb] Hs Hd Hhas. unfold insert_edge.
  rewrite (proj2 (both_nodes_true g src dst)) by done.
  rewrite bool_decide_eq_true_2 by (by apply find_end).
  exists (h ++ [make_edge src dst weight]).
  exists (sortedges (h ++ [make_edge src dst weight])
            (Graph (nodes_ g) (edges_ g ++ [length h]))).
  split; [destruct weight; reflexivity|]. split.
  { apply owned_sortedges. split; simpl.
    - apply NoDup_app. split_and!; [done| |apply NoDup_singleton].
      intros e He ->%list_elem_of_singleton.
      eapply Forall_forall in Hb; [|done]. lia.
    - rewrite length_app. simpl. apply Forall_app. split.
      + eapply Forall_impl; [done|]. simpl. lia.
      + apply Forall_singleton. lia. }
  split; [done|].
  rewrite sortedges_view_perm. unfold view at 1; simpl.
  rewrite fmap_app; simpl. rewrite deref_app_new.
  fold (view (h ++ [make_edge src dst weight]) g).
  by rewrite view_app_l.
Qed.

Lemma opt_lessb_asym (x y : option E) : opt_lessb x y = true → opt_lessb y x = false.
Proof. destruct x, y; simpl; try done. apply lessb_asym. Qed.

Lemma Sorted_weight_le (l : list edge) :
  sorted_by sort_weight l ↔ Sorted weight_le l.
Proof.
  unfold sorted_by.
  split; apply Sorted_ind; try constructor; try done.
  all: match goal with H : HdRel _ _ _ |- _ => destruct H; constructor end.
  all: by apply opt_lessb_false.
Qed.

Global Instance weight_le_trans : Transitive weight_le.
Proof. intros a b c. unfold weight_le. by etrans. Qed.

(** What [edges] returns is ascending by weight, the edge without
    weight first. *)
Lemma edges_sorted h g src dst l :
  edges h g src dst = Ret l → Sorted weight_le (deref h <$> l).
Proof.
  unfold edges. destruct (is_node g src && is_node g dst); [|done].
  intros [= <-]. rewrite (std_sort_fmap (deref h) sort_weight).
  apply Sorted_weight_le, std_sort_sorted.
  intros a b. apply opt_lessb_asym.
Qed.

Lemma edges_perm h g src dst l :
  edges h g src dst = Ret l →
  deref h <$> l ≡ₚ filter (from_to src dst) (view h g).
Proof.
  unfold edges. destruct (is_node g src && is_node g dst); [|done].
  intros [= <-]. rewrite std_sort_perm. unfold view. by rewrite filter_fmap.
Qed.

(** Every arrangement of what [edges] returns that is sorted by weight
    shows the same sequence of edges. *)
Lemma edges_sorted_unique h g src dst (l l' : list loc) :
  edges h g src dst = Ret l → l' ≡ₚ l →
  sorted_by (λ x y, sort_weight (deref h x) (deref h y)) l' →
  deref h <$> l' = deref h <$> l.
Proof.
  intros Hl Hperm Hs.
  pose proof (edges_perm h g src dst l Hl) as Hfilter.
  apply (Sorted_unique_strong weight_le).
  - intros x1 x2 Hx1 Hx2 H12 H21.
    rewrite Hperm, Hfilter in Hx1. rewrite Hfilter in Hx2.
    apply list_elem_of_filter in Hx1 as [[Hs1 Hd1] _].
    apply list_elem_of_filter in Hx2 as [[Hs2 Hd2] _].
    apply edge_ext.
    + apply injective_projections; congruence.
    + by apply (anti_symm opt_less_eq).
  - apply Sorted_weight_le. unfold sorted_by in *.
    by apply (Sorted_fmap_iff (deref h) (λ x y, sort_weight y x = false)).
  - by eapply edges_sorted.
  - by rewrite Hperm.
Qed.

(** In a list ascending by weight that holds the unweighted edge from
    [src] to [dst] among edges from [src] to [dst], that edge is first. *)
Lemma unweighted_first src dst (l : list edge) :
  Sorted weight_le l → Forall (from_to src dst) l → unweighted_edge src dst ∈ l →
  head l = Some (unweighted_edge src dst).
Proof.
  intros Hs Hall Hin. destruct l as [|a l]; [by apply elem_of_nil in Hin|].
  simpl. f_equal. apply Sorted_StronglySorted in Hs; [|apply _].
  apply StronglySorted_cons in Hs as [Hle _].
  apply Forall_cons in Hall as [[Ha1 Ha2] _].
  apply edge_ext.
  - simpl. apply injective_projections; simpl; done.
  - apply elem_of_cons in Hin as [<-|Hin]; [done|].
    eapply Forall_forall in Hle; [|done].
    unfold weight_le in Hle. simpl in *. by destruct (get_weight a).
Qed.

(** C9 (amended): what [edges] returns is always ascending by weight
    with the unweighted edge first.  Between two nodes [a] and [b] of a
    graph that holds neither the unweighted edge nor the edge of weight
    [w] from [a] to [b], [insert_edge(a, b)] and [insert_edge(a, b, w)]
    both return true, and [edges(a, b)] then holds two edges more than
    before, the unweighted one first: exactly the two when there was no
    edge from [a] to [b] before. *)
Theorem C9_unweighted_weighted_coexist h g (a b : N) (w : E) :
  (∀ l, edges h g a b = Ret l → Sorted weight_le (deref h <$> l))
  ∧ (owned h g → a ∈ nodes_ g → b ∈ nodes_ g →
     ¬ has_edge h g a b None → ¬ has_edge h g a b (Some w) →
     ∃ h1 g1 h2 g2 l,
       insert_edge h g a b None = (Ret true, h1, g1)
       ∧ insert_edge h1 g1 a b (Some w) = (Ret true, h2, g2)
       ∧ edges h2 g2 a b = Ret l
       ∧ length l = length (filter (from_to a b) (view h g)) + 2
       ∧ head (deref h2 <$> l) = Some (unweighted_edge a b)
       ∧ weighted_edge a b w ∈ deref h2 <$> l
       ∧ Sorted weight_le (deref h2 <$> l)
       ∧ (filter (from_to a b) (view h g) = [] →
          deref h2 <$> l = [unweighted_edge a b; weighted_edge a b w])).
Proof.
  split; [intros l; apply edges_sorted|].
  intros Hown Ha Hb Hu Hw.
  destruct (insert_edge_fresh h g a b None) as (h1 & g1 & Hr1 & Hown1 & Hn1 & Hv1);
    [done..|].
  destruct (insert_edge_fresh h1 g1 a b (Some w)) as (h2 & g2 & Hr2 & Hown2 & Hn2 & Hv2);
    [done|by rewrite Hn1|by rewrite Hn1| |].
  { unfold has_edge. rewrite Hv1. simpl.
    intros [Hin|Hin%list_elem_of_singleton]%elem_of_app; [by apply Hw|done]. }
  simpl in Hv1, Hv2. rewrite Hv1, <-(assoc (++)) in Hv2. simpl in Hv2.
  destruct (edges_view h2 g2 a b) as (l & Hl & Hval);
    [by rewrite Hn2, Hn1..|].
  assert (filter (from_to a b) (view h2 g2)
          ≡ₚ filter (from_to a b) (view h g)
             ++ [unweighted_edge a b; weighted_edge a b w]) as HL.
  { rewrite Hv2, filter_app. f_equiv.
    rewrite !filter_cons, !decide_True by done. done. }
  assert (deref h2 <$> l
          ≡ₚ filter (from_to a b) (view h g)
             ++ [unweighted_edge a b; weighted_edge a b w]) as Hperm.
  { by rewrite Hval, std_sort_perm. }
  exists h1, g1, h2, g2, l. split_and!; try done.
  - by rewrite <-(length_fmap (deref h2)), Hperm, length_app.
  - apply unweighted_first.
    + by eapply edges_sorted.
    + rewrite Hval, std_sort_perm. apply Forall_forall.
      by intros x [? _]%list_elem_of_filter.
    + rewrite Hperm. set_solver.
  - rewrite Hperm. set_solver.
  - by eapply edges_sorted.
  - intros Hnone. rewrite Hnone in HL. simpl in HL. rewrite Hval.
    symmetry in HL. apply Permutation_length_2_inv in HL as [-> | ->]; done.
Qed.

(** ** The extractor *)

Lemma append_cons ch (s1 s2 : string) : String ch s1 +:+ s2 = String ch (s1 +:+ s2).
Proof. reflexivity. Qed.

Lemma append_assoc (s1 s2 s3 : string) : (s1 +:+ s2) +:+ s3 = s1 +:+ s2 +:+ s3.
Proof. induction s1 as [|ch s1 IH]; [done|]. by rewrite !append_cons, IH. Qed.

Lemma append_empty_r (s1 : string) : s1 +:+ "" = s1.
Proof. induction s1 as [|ch s1 IH]; [done|]. by rewrite append_cons, IH. Qed.

Lemma concat_str_app (l1 l2 : list string) :
  concat_str (l1 ++ l2) = concat_str l1 +:+ concat_str l2.
Proof.
  induction l1 as [|x l1 IH]; simpl; [done|]. by rewrite IH, append_assoc.
Qed.

Section strict_sorting.
Context `{Ordered A}.

Lemma sorted_by_strict (l : list A) :
  sorted_by lessb l → NoDup l → Sorted less l.
Proof.
  unfold sorted_by. induction 1 as [|x l Hs IH Hhd]; intros Hnd; constructor.
  - apply IH. by apply NoDup_cons in Hnd as [_ ?].
  - destruct Hhd as [|y l Hxy]; constructor.
    apply lessb_false, not_less_iff in Hxy as [?| ->]; [done|].
    apply NoDup_cons in Hnd as [Hin _]. destruct Hin. by left.
Qed.

(** Sorting distinct values gives a strictly ascending list. *)
Lemma std_sort_strict (l : list A) : NoDup l → Sorted less (std_sort lessb l).
Proof.
  intros Hnd. apply sorted_by_strict.
  - apply std_sort_sorted. apply lessb_asym.
  - by rewrite std_sort_perm.
Qed.
End strict_sorting.

(** [nodes] lists the node set, strictly ascending. *)
Lemma nodes_spec g :
  Sorted less (nodes g) ∧ ∀ n, n ∈ nodes g ↔ n ∈ nodes_ g.
Proof.
  unfold nodes. split.
  - apply std_sort_strict, NoDup_elements.
  - intros n. by rewrite std_sort_perm, elem_of_elements.
Qed.

Lemma connections_loop_spec h src es (res : list N) :
  NoDup res →
  NoDup (connections_loop h src es res)
  ∧ ∀ d, d ∈ connections_loop h src es res
         ↔ d ∈ res ∨ ∃ e, e ∈ es ∧ from_to src d (deref h e).
Proof.
  revert res. induction es as [|e es IH]; intros res Hnd; simpl.
  { split; [done|]. intros d. split; [by left|].
    intros [?|(e & He & _)]; [done|]. by apply elem_of_nil in He. }
  repeat case_bool_decide; simpl.
  - destruct (IH res Hnd) as [Hnd' Hin]. split; [done|].
    intros d. rewrite Hin. split.
    + intros [?|(e' & He' & Hft)]; [by left|]. right. exists e'. split; [by right|done].
    + intros [?|(e' & [->|He']%elem_of_cons & Hft)]; [by left| |].
      * left. destruct Hft as [_ <-]. done.
      * right. by exists e'.
  - destruct (IH (res ++ [(get_nodes (deref h e)).2])) as [Hnd' Hin].
    { apply NoDup_app. split_and!; [done| |apply NoDup_singleton].
      by intros x ? ->%list_elem_of_singleton. }
    split; [done|]. intros d. rewrite Hin, elem_of_app, list_elem_of_singleton. split.
    + intros [[?| ->]|(e' & He' & Hft)]; [by left| |].
      * right. exists e. split; [by left|done].
      * right. exists e'. split; [by right|done].
    + intros [?|(e' & [->|He']%elem_of_cons & Hft)]; [by left; left| |].
      * left. right. by destruct Hft as [_ <-].
      * right. by exists e'.
  - destruct (IH res Hnd) as [Hnd' Hin]. split; [done|].
    intros d. rewrite Hin. split.
    + intros [?|(e' & He' & Hft)]; [by left|]. right. exists e'. split; [by right|done].
    + intros [?|(e' & [->|He']%elem_of_cons & Hft)]; [by left| |].
      * by destruct Hft as [? _].
      * right. by exists e'.
  - destruct (IH res Hnd) as [Hnd' Hin]. split; [done|].
    intros d. rewrite Hin. split.
    + intros [?|(e' & He' & Hft)]; [by left|]. right. exists e'. split; [by right|done].
    + intros [?|(e' & [->|He']%elem_of_cons & Hft)]; [by left| |].
      * by destruct Hft as [? _].
      * right. by exists e'.
Qed.

(** [connections] of a node: the distinct destinations of its edges,
    strictly ascending. *)
Lemma connections_spec h g src :
  src ∈ nodes_ g →
  ∃ ds, connections h g src = Ret ds
    ∧ Sorted less ds
    ∧ ∀ d, d ∈ ds ↔ ∃ a, a ∈ view h g ∧ from_to src d a.
Proof.
  intros Hs. unfold connections. apply is_node_true in Hs. rewrite Hs.
  destruct (connections_loop_spec h src (edges_ g) []) as [Hnd Hin]; [constructor|].
  eexists. split; [done|]. split; [by apply std_sort_strict|].
  intros d. rewrite std_sort_perm, Hin. unfold view. split.
  - intros [Hd|(e & He & Hft)]; [by apply elem_of_nil in Hd|].
    exists (deref h e). split; [|done]. apply list_elem_of_fmap. by exists e.
  - intros (a & (e & -> & He)%list_elem_of_fmap & Hft). right. by exists e.
Qed.

Lemma put_edges_spec h (oss : string) (l : list loc) :
  put_edges h oss l = oss +:+ concat_str (dump_line <$> (deref h <$> l)).
Proof.
  unfold put_edges. revert oss. induction l as [|e l IH]; intros oss; csimpl.
  { by rewrite append_empty_r. }
  rewrite IH. unfold dump_line. by rewrite !append_assoc.
Qed.

(** The loop over the destinations writes, for each, its edges in the
    order [edges] gives them. *)
Lemma put_conn_spec h g n (oss : string) (conn : list N) :
  n ∈ nodes_ g → Forall (λ cn, cn ∈ nodes_ g) conn →
  ∃ ess,
    put_conn h g n oss conn = Ret (oss +:+ concat_str (dump_line <$> concat ess))
    ∧ Forall2 (λ d vs, vs ≡ₚ filter (from_to n d) (view h g) ∧ Sorted weight_le vs)
        conn ess.
Proof.
  intros Hn. revert oss. induction conn as [|cn conn IH]; intros oss Hall; simpl.
  { exists []. split; [by rewrite append_empty_r|constructor]. }
  apply Forall_cons in Hall as [Hcn Hall].
  destruct (edges_view h g n cn Hn Hcn) as (l & Hl & Hval). rewrite Hl.
  destruct (IH (put_edges h oss l) Hall) as (ess & Hrun & Hess).
  exists ((deref h <$> l) :: ess). split.
  - rewrite Hrun, put_edges_spec. simpl.
    by rewrite fmap_app, concat_str_app, append_assoc.
  - constructor; [|done]. split.
    + by eapply edges_perm.
    + by eapply edges_sorted.
Qed.

Lemma put_nodes_spec h g (oss : string) (ns : list N) :
  I1 h g → Forall (λ n, n ∈ nodes_ g) ns →
  ∃ bs,
    put_nodes h g oss ns = Ret (oss +:+ concat_str bs)
    ∧ Forall2 (block_of h g) ns bs.
Proof.
  intros HI1. revert oss. induction ns as [|n ns IH]; intros oss Hall; simpl.
  { exists []. split; [by rewrite append_empty_r|constructor]. }
  apply Forall_cons in Hall as [Hn Hall].
  destruct (connections_spec h g n Hn) as (ds & Hds & Hsorted & Hin). rewrite Hds.
  destruct (put_conn_spec h g n (oss +:+ pretty n +:+ " (" +:+ LF) ds Hn)
    as (ess & Hrun & Hess).
  { apply Forall_forall. intros d (a & Ha & _ & <-)%Hin.
    unfold I1 in HI1. eapply Forall_forall in HI1; [|done]. by destruct HI1. }
  rewrite Hrun.
  destruct (IH ((oss +:+ pretty n +:+ " (" +:+ LF
                  +:+ concat_str (dump_line <$> concat ess)) +:+ ")" +:+ LF) Hall)
    as (bs & Hrun' & Hbs).
  exists ((pretty n +:+ " (" +:+ LF +:+ concat_str (dump_line <$> concat ess)
             +:+ ")" +:+ LF) :: bs).
  split.
  - rewrite !append_assoc in Hrun'. rewrite !append_assoc.
    rewrite Hrun'. simpl. by rewrite !append_assoc.
  - constructor; [|done]. by exists ds, ess.
Qed.

(** C8 (amended): on a graph whose edges end in nodes, the extractor
    writes a line feed and then, for each node in ascending order, the header
    line of the node, one line for each edge that leaves it, grouped by
    destination in ascending order and within a destination ascending
    by weight with the unweighted edge first, each line the rendering
    of the edge after two spaces, and the closing line; a node without
    outgoing edges gets the header and the closing line alone. *)
Theorem C8_extractor_dump h g :
  I1 h g →
  (∃ s, extractor h g = Some s ∧ dump_of h g s)
  ∧ (∀ n blk, block_of h g n blk →
       (∀ a, a ∈ view h g → (get_nodes a).1 ≠ n) →
       blk = pretty n +:+ " (" +:+ LF +:+ ")" +:+ LF)
  ∧ (∀ src dst weight,
       print_edge (weighted_edge src dst weight)
       = pretty src +:+ " -> " +:+ pretty dst +:+ " | W | " +:+ pretty weight)
  ∧ (∀ src dst,
       print_edge (unweighted_edge src dst)
       = pretty src +:+ " -> " +:+ pretty dst +:+ " | U").
Proof.
  intros HI1. split_and!; [| |done..].
  - destruct (nodes_spec g) as [Hsorted Hin].
    destruct (put_nodes_spec h g LF (nodes g) HI1) as (bs & Hrun & Hbs).
    { apply Forall_forall. intros n. by rewrite Hin. }
    unfold extractor. rewrite Hrun. eexists. split; [done|].
    by exists (nodes g), bs.
  - intros n blk (ds & ess & _ & Hin & Hess & ->) Hnone.
    destruct ds as [|d ds].
    + inversion Hess; subst. done.
    + destruct (proj1 (Hin d)) as (a & Ha & Hsrc & _); [by left|].
      by destruct (Hnone a Ha).
Qed.

(** ** The pointers of a graph stay distinct and allocated *)

Lemma owned_sublist h g es ns :
  es `sublist_of` edges_ g → owned h g → owned h (Graph ns es).
Proof.
  intros Hsub [Hnd Hb]. split; simpl.
  - by eapply sublist_NoDup.
  - apply Forall_forall. intros e He.
    eapply Forall_forall in Hb; [done|]. by eapply elem_of_sublist.
Qed.

Lemma erase_node_loop_sublist h value es :
  erase_node_loop h value es `sublist_of` es.
Proof.
  induction es as [|e es IH]; simpl; [done|].
  destruct (_ || _); [by apply sublist_cons|by apply sublist_skip].
Qed.

(** [owned] holds of every constructed graph and is kept by every
    modifier and by copying. *)
Lemma owned_preserved h g :
  owned h graph_default
  ∧ (∀ il, owned h (graph_of_list il))
  ∧ (owned h g →
     owned h (graph_copy g)
     ∧ (∀ value, owned (insert_node h g value).1.2 (insert_node h g value).2)
     ∧ (∀ src dst weight,
          owned (insert_edge h g src dst weight).1.2 (insert_edge h g src dst weight).2)
     ∧ (∀ old_data new_data,
          owned (replace_node h g old_data new_data).1.2
                (replace_node h g old_data new_data).2)
     ∧ (∀ old_data new_data,
          owned (merge_replace_node h g old_data new_data).1.2
                (merge_replace_node h g old_data new_data).2)
     ∧ (∀ value, owned (erase_node h g value).1.2 (erase_node h g value).2)
     ∧ (∀ src dst weight,
          owned (erase_edge h g src dst weight).1.2 (erase_edge h g src dst weight).2)
     ∧ (∀ i, owned (erase_edge_at h g i).1.2 (erase_edge_at h g i).2)
     ∧ (∀ i s, i ≤ s →
          owned (erase_edge_range h g i s).1.2 (erase_edge_range h g i s).2)
     ∧ owned (clear h g).1 (clear h g).2).
Proof.
  assert (∀ ns, owned h (Graph ns [])) as Hnil.
  { intros ns. split; simpl; constructor. }
  split; [apply Hnil|]. split; [intros; apply Hnil|].
  intros Hown. split_and!.
  - by destruct g.
  - intros value. unfold insert_node. case_bool_decide; [done|].
    by apply (owned_sublist h g).
  - intros src dst weight.
    destruct (decide (src ∈ nodes_ g ∧ dst ∈ nodes_ g)) as [[Hs Hd]|Hn].
    + destruct (decide (has_edge h g src dst weight)) as [Hhas|Hno].
      * unfold insert_edge. rewrite (proj2 (both_nodes_true g src dst)) by done.
        rewrite bool_decide_eq_false_2; [done|]. rewrite find_end. by auto.
      * destruct (insert_edge_fresh h g src dst weight) as (h' & g' & -> & ? & _);
          done.
    + unfold insert_edge. rewrite (proj2 (both_nodes_false g src dst)); [done|].
      apply not_and_l in Hn. done.
  - intros old_data new_data. unfold replace_node.
    destruct (is_node g old_data); [|done].
    destruct (is_node g new_data); simpl; [done|].
    destruct Hown as [Hnd Hb].
    destruct (rename_loop_spec old_data new_data (edges_ g) h Hnd Hb) as (Hlen & _).
    apply owned_sortedges. split; simpl; [done|]. by rewrite Hlen.
  - intros old_data new_data. unfold merge_replace_node.
    destruct (is_node g old_data && is_node g new_data); [|done].
    destruct Hown as [Hnd Hb].
    destruct (merge_loop_spec old_data new_data (edges_ g) h []) as (Hlen & Hptr & _);
      [done..|].
    destruct (merge_loop h [] (edges_ g) old_data new_data) as [h' es].
    simpl in *. apply owned_sortedges.
    apply (owned_sublist h' (Graph (nodes_ g) (edges_ g))).
    + rewrite Hptr. apply keep_first_on_sublist.
    + split; simpl; [done|]. by rewrite Hlen.
  - intros value. unfold erase_node.
    destruct (is_node g value); simpl; [|done].
    apply owned_sortedges, (owned_sublist h g); [|done].
    apply erase_node_loop_sublist.
  - intros src dst weight. unfold erase_edge.
    destruct (is_node g src && is_node g dst); [|done].
    case_bool_decide; simpl; [done|].
    apply owned_sortedges, (owned_sublist h g); [|done]. apply sublist_delete.
  - intros i. apply owned_sortedges, (owned_sublist h g); [|done].
    apply sublist_delete.
  - intros i s His. apply owned_sortedges, (owned_sublist h g); [|done].
    rewrite <-(take_drop i (edges_ g)) at 3. apply sublist_app; [done|].
    replace s with (i + (s - i)) by lia. rewrite <-drop_drop. apply sublist_drop.
  - apply Hnil.
Qed.

(** * Further properties of the container *)

(** ** Nodes *)

Lemma insert_nodes_spec h g (vs : list N) :
  insert_nodes (h, g) vs = (h, Graph (nodes_ g ∪ list_to_set vs) (edges_ g)).
Proof.
  revert g. induction vs as [|v vs IH]; intros g; simpl.
  { destruct g as [ns es]. simpl. do 2 f_equal. set_solver. }
  unfold insert_nodes in *. simpl.
  unfold insert_node. case_bool_decide as Hin; simpl.
  - rewrite IH. do 2 f_equal. set_solver.
  - rewrite IH. simpl. do 2 f_equal. set_solver.
Qed.

(** [insert_node] returns true exactly when the value is new and false,
    changing nothing, when it is there; it never touches an edge.  After
    any sequence of insertions the nodes are those there before and those
    inserted, and [nodes()] lists them strictly ascending, each once. *)
Theorem insert_node_spec h g value (vs : list N) :
  ((insert_node h g value).1.1 = true ↔ value ∉ nodes_ g)
  ∧ (value ∈ nodes_ g → insert_node h g value = (false, h, g))
  ∧ (insert_node h g value).1.2 = h
  ∧ edges_ (insert_node h g value).2 = edges_ g
  ∧ nodes_ (insert_node h g value).2 = {[value]} ∪ nodes_ g
  ∧ insert_node h (insert_node h g value).2 value = (false, h, (insert_node h g value).2)
  ∧ (insert_nodes (h, g) vs).1 = h
  ∧ edges_ (insert_nodes (h, g) vs).2 = edges_ g
  ∧ Sorted less (nodes (insert_nodes (h, g) vs).2)
  ∧ NoDup (nodes (insert_nodes (h, g) vs).2)
  ∧ (∀ n, n ∈ nodes (insert_nodes (h, g) vs).2 ↔ n ∈ nodes_ g ∨ n ∈ vs).
Proof.
  rewrite insert_nodes_spec. simpl.
  destruct (nodes_spec (Graph (nodes_ g ∪ list_to_set vs) (edges_ g))) as [Hsorted Hin].
  unfold insert_node. split_and!; try done.
  - case_bool_decide; simpl; naive_solver.
  - intros Hv. by rewrite bool_decide_eq_true_2.
  - by case_bool_decide.
  - by case_bool_decide.
  - case_bool_decide; simpl; [|done]. set_solver.
  - destruct (decide (value ∈ nodes_ g)) as [Hv|Hv].
    + by rewrite !(bool_decide_eq_true_2 _ Hv).
    + rewrite (bool_decide_eq_false_2 _ Hv). simpl.
      rewrite bool_decide_eq_true_2; [done|set_solver].
  - unfold nodes. rewrite std_sort_perm. apply NoDup_elements.
  - intros n. rewrite Hin. simpl. set_solver.
Qed.

(** The constructors from a list give the graph that inserting the
    values one by one into the default graph gives: no edge, every value
    once, whatever the list repeats; [empty()] holds exactly when
    [nodes()] is empty, and then, on a graph whose edges end in nodes,
    there is no edge either. *)
Theorem graph_of_list_spec h g (il : list N) :
  graph_of_list il = (insert_nodes (h, graph_default) il).2
  ∧ edges_ (graph_of_list il) = []
  ∧ Sorted less (nodes (graph_of_list il))
  ∧ (∀ n, n ∈ nodes (graph_of_list il) ↔ n ∈ il)
  ∧ (empty (graph_of_list il) = true ↔ il = [])
  ∧ empty graph_default = true
  ∧ (empty g = true ↔ nodes g = [])
  ∧ (I1 h g → empty g = true → edges_ g = []).
Proof.
  destruct (nodes_spec (graph_of_list il)) as [Hsorted Hin].
  assert (empty g = true ↔ nodes g = []) as Hempty.
  { unfold empty, nodes. rewrite bool_decide_eq_true. split.
    - intros ->. by rewrite elements_empty.
    - intros Hnil. apply leibniz_equiv, elements_empty_inv.
      apply Permutation_nil_r. by rewrite <-Hnil, std_sort_perm. }
  split_and!; try done.
  - rewrite insert_nodes_spec. unfold graph_of_list. simpl. f_equal. set_solver.
  - intros n. rewrite Hin. unfold graph_of_list; simpl. set_solver.
  - unfold empty, graph_of_list; simpl. rewrite bool_decide_eq_true.
    destruct il as [|x il]; simpl; [done|]. split; [|done].
    intros Hx. exfalso. set_solver.
  - unfold empty. rewrite bool_decide_eq_true. intros HI1 Hno.
    unfold I1, view in HI1. destruct (edges_ g) as [|e es]; [done|].
    apply Forall_cons in HI1 as [[Hsrc _] _]. rewrite Hno in Hsrc. set_solver.
Qed.

(** ** Erasing *)

Lemma erase_node_loop_filter h value es :
  erase_node_loop h value es = filter (λ e, ¬ touches value (deref h e)) es.
Proof.
  induction es as [|e es IH]; simpl; [done|].
  rewrite filter_cons, IH. unfold touches.
  repeat case_bool_decide; simpl; case_decide; naive_solver.
Qed.

(** [erase_node] returns false and changes nothing when the value is no
    node.  Otherwise it returns true, the value is no node any more, and
    exactly the edges that start or end at it are gone; on a graph that
    satisfies I3 the others are shown in the order they had, and on one
    that has no duplicates either their pointers keep their places; a
    second call returns false. *)
Theorem erase_node_spec h g value :
  (value ∉ nodes_ g → erase_node h g value = (false, h, g))
  ∧ (value ∈ nodes_ g →
     ∃ g', erase_node h g value = (true, h, g')
       ∧ nodes_ g' = nodes_ g ∖ {[value]}
       ∧ view h g' ≡ₚ filter (λ a, ¬ touches value a) (view h g)
       ∧ (I3 h g → view h g' = filter (λ a, ¬ touches value a) (view h g))
       ∧ (I2 h g → I3 h g →
          edges_ g' = filter (λ e, ¬ touches value (deref h e)) (edges_ g))
       ∧ erase_node h g' value = (false, h, g')).
Proof.
  unfold erase_node at 1 2. split.
  { intros Hv. apply is_node_false in Hv. by rewrite Hv. }
  intros Hv. apply is_node_true in Hv. rewrite Hv.
  eexists. split; [done|]. rewrite erase_node_loop_filter.
  split; [done|]. split.
  { rewrite sortedges_view_perm. unfold view; simpl. by rewrite filter_fmap. }
  split; [|split].
  - intros HI3. rewrite (sortedges_sublist_view h g); [|apply sublist_filter|done].
    unfold view. by rewrite filter_fmap.
  - intros _ HI3. rewrite sortedges_id; [done|].
    apply (I3_sublist h g); [apply sublist_filter|done].
  - unfold erase_node. rewrite (proj2 (is_node_false _ value)); [done|].
    simpl. set_solver.
Qed.

(** [erase_edge(src, dst, weight)] throws when an end is no node and
    returns false, changing nothing, when no edge matches.  Otherwise it
    returns true and one matching edge is gone and nothing else; on a
    graph that satisfies I3 the edges shown are the old ones without the
    position [find] returns, and on one that has no duplicates either
    the pointer of that position is the one removed; on a graph without
    duplicates the edge is then absent, and a second call returns
    false. *)
Theorem erase_edge_spec h g src dst weight :
  (src ∉ nodes_ g ∨ dst ∉ nodes_ g →
     erase_edge h g src dst weight
     = (Throw "Cannot call gdwg::graph<N, E>::erase_edge on src or dst if they don't exist in the graph",
        h, g))
  ∧ (src ∈ nodes_ g → dst ∈ nodes_ g → ¬ has_edge h g src dst weight →
     erase_edge h g src dst weight = (Ret false, h, g))
  ∧ (src ∈ nodes_ g → dst ∈ nodes_ g → has_edge h g src dst weight →
     ∃ g', erase_edge h g src dst weight = (Ret true, h, g')
       ∧ nodes_ g' = nodes_ g
       ∧ view h g ≡ₚ make_edge src dst weight :: view h g'
       ∧ (I3 h g → view h g' = delete (find h g src dst weight) (view h g))
       ∧ (I2 h g → I3 h g →
          edges_ g' = delete (find h g src dst weight) (edges_ g))
       ∧ (I2 h g →
          ¬ has_edge h g' src dst weight
          ∧ erase_edge h g' src dst weight = (Ret false, h, g'))).
Proof.
  unfold erase_edge at 1 2 3. split_and!.
  - intros Hn. apply both_nodes_false in Hn. by rewrite Hn.
  - intros Hs Hd Hno. rewrite (proj2 (both_nodes_true g src dst)) by done.
    by rewrite bool_decide_eq_true_2 by (by apply find_end).
  - intros Hs Hd Hhas. rewrite (proj2 (both_nodes_true g src dst)) by done.
    assert (find h g src dst weight ≠ edges_end g) as Hne.
    { rewrite find_end. by auto. }
    rewrite bool_decide_eq_false_2 by done. simpl.
    pose proof (find_in_le h (edges_ g) src dst weight) as Hle.
    destruct (find_in_first h (edges_ g) src dst weight _ eq_refl) as [Hat _].
    { unfold find, edges_end in Hne. lia. }
    set (g' := sortedges h _).
    assert (view h g ≡ₚ make_edge src dst weight :: view h g') as Hperm.
    { unfold g'. rewrite sortedges_view_perm. unfold view; simpl.
      rewrite list_fmap_delete. by apply delete_Permutation. }
    exists g'. split; [done|]. split; [done|]. split; [done|]. split; [|split].
    + intros HI3. unfold g'.
      rewrite (sortedges_sublist_view h g); [|apply sublist_delete|done].
      unfold view. by rewrite list_fmap_delete.
    + intros _ HI3. unfold g'. rewrite sortedges_id; [done|].
      apply (I3_sublist h g); [apply sublist_delete|done].
    + intros HI2. unfold I2 in HI2. rewrite Hperm in HI2.
      apply NoDup_cons in HI2 as [Hnot _]. split; [done|].
      unfold erase_edge.
      rewrite (proj2 (both_nodes_true g' src dst)) by done.
      by rewrite bool_decide_eq_true_2 by (by apply find_end).
Qed.

(** ** Queries *)

(** [find] returns a position up to [edges_.end()]: the end exactly when
    no edge has these ends and this weight, and otherwise the first
    position whose edge has them, which is what the iterator shows
    there. *)
Theorem find_spec h g src dst weight :
  find h g src dst weight ≤ edges_end g
  ∧ (find h g src dst weight = edges_end g ↔ ¬ has_edge h g src dst weight)
  ∧ (find h g src dst weight < edges_end g →
     iterator_deref h g (find h g src dst weight) = (src, dst, weight)
     ∧ ∀ j, j < find h g src dst weight →
            view h g !! j ≠ Some (make_edge src dst weight)).
Proof.
  split; [apply find_in_le|]. split; [apply find_end|].
  intros Hlt.
  destruct (find_in_first h (edges_ g) src dst weight _ eq_refl Hlt) as [Hat Hbefore].
  split.
  - unfold iterator_deref. rewrite list_lookup_fmap in Hat.
    destruct (edges_ g !! find_in h (edges_ g) src dst weight) as [e|] eqn:He; [|done].
    injection Hat as Hat. unfold find.
    rewrite (list_lookup_total_correct _ _ _ He), Hat.
    by rewrite get_nodes_make_edge, get_weight_make_edge.
  - intros j Hj Hview. apply Hbefore. rewrite fmap_take.
    apply elem_of_take. by exists j.
Qed.

(** For two nodes, [edges] returns the edges from the first to the
    second, each once, [connections] the distinct destinations of the
    edges that leave the first, strictly ascending, and the three
    queries agree: there is an edge from the one to the other exactly
    when [is_connected] returns true, exactly when [edges] returns a list
    that is not empty, and exactly when the second is among the
    connections of the first.  [is_connected] and [edges] throw when one
    of the two is no node, [connections] when its argument is none. *)
Theorem queries_agree h g src dst :
  (src ∈ nodes_ g → dst ∈ nodes_ g →
     ∃ r l ds,
       is_connected h g src dst = Ret r
       ∧ edges h g src dst = Ret l
       ∧ connections h g src = Ret ds
       ∧ deref h <$> l ≡ₚ filter (from_to src dst) (view h g)
       ∧ Sorted less ds
       ∧ (∀ d, d ∈ ds ↔ ∃ a, a ∈ view h g ∧ from_to src d a)
       ∧ (r = true ↔ ∃ a, a ∈ view h g ∧ from_to src dst a)
       ∧ (r = true ↔ l ≠ [])
       ∧ (r = true ↔ dst ∈ ds))
  ∧ (src ∉ nodes_ g ∨ dst ∉ nodes_ g →
     is_throw (is_connected h g src dst) = true ∧ is_throw (edges h g src dst) = true)
  ∧ (src ∉ nodes_ g → is_throw (connections h g src) = true).
Proof.
  split_and!.
  - intros Hs Hd.
    destruct (edges_view h g src dst Hs Hd) as (l & Hl & _).
    pose proof (edges_perm h g src dst l Hl) as Hperm.
    destruct (connections_spec h g src Hs) as (ds & Hds & Hsorted & Hin).
    unfold is_connected. rewrite (proj2 (both_nodes_true g src dst)) by done.
    do 3 eexists. split; [done|]. split; [done|]. split; [done|].
    split; [done|]. split; [done|]. split; [done|].
    assert (existsb (λ e, bool_decide ((get_nodes (deref h e)).1 = src)
                          && bool_decide ((get_nodes (deref h e)).2 = dst)) (edges_ g) = true
            ↔ ∃ a, a ∈ view h g ∧ from_to src dst a) as Hex.
    { rewrite existsb_exists. unfold view, from_to. split.
      - intros (e & He%list_elem_of_In & Hb). apply andb_true_iff in Hb as [H1 H2].
        apply bool_decide_eq_true in H1, H2.
        exists (deref h e). split; [|done]. apply list_elem_of_fmap. by exists e.
      - intros (a & (e & -> & He)%list_elem_of_fmap & H1 & H2).
        exists e. split; [by apply list_elem_of_In|].
        by rewrite !bool_decide_eq_true_2. }
    split; [done|]. rewrite Hex. split.
    + split.
      * intros (a & Ha & Hft) ->. csimpl in Hperm. symmetry in Hperm.
        apply Permutation_nil_r in Hperm.
        assert (a ∈ filter (from_to src dst) (view h g)) as Hin'
          by (by apply list_elem_of_filter).
        rewrite Hperm in Hin'. by apply elem_of_nil in Hin'.
      * intros Hne. destruct l as [|e l]; [done|].
        assert (deref h e ∈ filter (from_to src dst) (view h g)) as Hin'.
        { rewrite <-Hperm. csimpl. by left. }
        apply list_elem_of_filter in Hin' as [? ?]. by exists (deref h e).
    + by rewrite Hin.
  - intros Hn. apply both_nodes_false in Hn. unfold is_connected, edges. by rewrite Hn.
  - intros Hn. apply is_node_false in Hn. unfold connections. by rewrite Hn.
Qed.

(** ** Comparison *)

(** [this == other], for an [other] without duplicate edges, holds
    exactly when the two graphs have the same nodes and the same edges;
    between graphs without duplicates it is therefore symmetric, and a
    graph always equals itself. *)
Theorem graph_eqb_spec h g other :
  I2 h other →
  (graph_eqb h g other = true ↔ nodes_ other = nodes_ g ∧ view h other ≡ₚ view h g)
  ∧ (I2 h g → graph_eqb h g other = graph_eqb h other g)
  ∧ graph_eqb h g g = true.
Proof.
  intros HI2.
  assert (∀ g1 g2, nodes_ g2 = nodes_ g1 → view h g2 ≡ₚ view h g1 →
                   graph_eqb h g1 g2 = true) as Hback.
  { intros g1 g2 Hn Hp. unfold graph_eqb. rewrite Hn.
    assert (length (edges_ g2) = length (edges_ g1)) as Hlen.
    { rewrite <-(length_fmap (deref h) (edges_ g2)), <-(length_fmap (deref h) (edges_ g1)).
      by apply Permutation_length. }
    rewrite !bool_decide_eq_true_2 by done. simpl.
    apply andb_true_iff. split; apply forallb_forall.
    - intros n Hin%list_elem_of_In%elem_of_elements. by apply bool_decide_eq_true_2.
    - intros e He%list_elem_of_In. apply negb_true_iff, bool_decide_eq_false_2.
      rewrite find_end. intros Hno. apply Hno. unfold has_edge.
      rewrite make_edge_get, <-Hp. apply list_elem_of_fmap. by exists e. }
  assert (∀ g1 g2, I2 h g2 → graph_eqb h g1 g2 = true →
                   nodes_ g2 = nodes_ g1 ∧ view h g2 ≡ₚ view h g1) as Hforth.
  { intros g1 g2 Hnd. unfold graph_eqb.
    destruct (bool_decide (size (nodes_ g2) = size (nodes_ g1))) eqn:Hsize; [|done].
    destruct (bool_decide (length (edges_ g2) = length (edges_ g1))) eqn:Hlen; [|done].
    simpl. intros [Hns Hes]%andb_true_iff.
    apply bool_decide_eq_true in Hsize, Hlen.
    rewrite forallb_forall in Hns. rewrite forallb_forall in Hes. split.
    - apply set_subseteq_size_eq; [|lia].
      intros n Hn. specialize (Hns n). rewrite bool_decide_eq_true in Hns.
      apply Hns, list_elem_of_In, elem_of_elements, Hn.
    - apply submseteq_length_Permutation;
        [|unfold view; rewrite !length_fmap; lia].
      apply NoDup_submseteq; [done|].
      intros a (e & -> & He)%list_elem_of_fmap.
      specialize (Hes e (proj1 (list_elem_of_In _ _) He)).
      apply negb_true_iff, bool_decide_eq_false in Hes.
      destruct (decide (has_edge h g1 (get_nodes (deref h e)).1 (get_nodes (deref h e)).2
                          (get_weight (deref h e)))) as [Hhas|Hno].
      + unfold has_edge in Hhas. by rewrite make_edge_get in Hhas.
      + by apply find_end in Hno. }
  split_and!.
  - split; [by apply Hforth|]. intros [? ?]. by apply Hback.
  - intros HI2g. destruct (graph_eqb h g other) eqn:H1.
    + apply Hforth in H1 as [Hn Hp]; [|done]. symmetry. by apply Hback.
    + destruct (graph_eqb h other g) eqn:H2; [|done].
      apply Hforth in H2 as [Hn Hp]; [|done].
      rewrite Hback in H1; done.
  - by apply Hback.
Qed.

(** ** The invariants I1 and I2 *)

(** What [replace_node] does when it succeeds. *)
Lemma replace_node_run h g old_data new_data :
  owned h g → old_data ∈ nodes_ g → new_data ∉ nodes_ g →
  ∃ h' g', replace_node h g old_data new_data = (Ret true, h', g')
    ∧ nodes_ g' = {[new_data]} ∪ (nodes_ g ∖ {[old_data]})
    ∧ view h' g' ≡ₚ rename old_data new_data <$> view h g
    ∧ (∀ e, e ∉ edges_ g → deref h' e = deref h e)
    ∧ I3 h' g'
    ∧ owned h' g'.
Proof.
  intros [Hnd Hb] Ho Hn. unfold replace_node.
  apply is_node_true in Ho. apply is_node_false in Hn. rewrite Ho, Hn. simpl.
  destruct (rename_loop_spec old_data new_data (edges_ g) h Hnd Hb) as (Hlen & Hval & Hoth).
  do 2 eexists. split; [done|]. split; [done|]. split.
  { rewrite sortedges_view_perm. unfold view at 1. simpl. by rewrite Hval. }
  split; [done|]. split; [apply sortedges_I3|].
  apply owned_sortedges. split; simpl; [done|]. by rewrite Hlen.
Qed.

(** What [merge_replace_node] does when it does not throw. *)
Lemma merge_replace_node_run h g old_data new_data :
  owned h g → old_data ∈ nodes_ g → new_data ∈ nodes_ g →
  ∃ h' g', merge_replace_node h g old_data new_data = (Ret (), h', g')
    ∧ nodes_ g' = nodes_ g
    ∧ view h' g' ≡ₚ keep_first [] (rename old_data new_data <$> view h g)
    ∧ (∀ e, e ∉ edges_ g → deref h' e = deref h e).
Proof.
  intros [Hnd Hb] Ho Hn. unfold merge_replace_node.
  rewrite (proj2 (both_nodes_true g old_data new_data)) by done.
  pose proof (merge_loop_view old_data new_data h (edges_ g) Hnd Hb) as Hval.
  destruct (merge_loop_spec old_data new_data (edges_ g) h []) as (_ & _ & Hoth & _);
    [done..|].
  destruct (merge_loop h [] (edges_ g) old_data new_data) as [h' es].
  simpl in *. do 2 eexists. split; [done|]. split; [done|]. split; [|done].
  rewrite sortedges_view_perm. unfold view at 1. simpl. by rewrite Hval.
Qed.

Lemma I1_perm h g g' :
  nodes_ g' = nodes_ g → view h g' ⊆ view h g → I1 h g → I1 h g'.
Proof.
  unfold I1. intros Hn Hsub HI1. rewrite Hn.
  apply Forall_forall. intros a Ha. eapply Forall_forall in HI1; [done|]. by apply Hsub.
Qed.

Lemma view_sublist h g es ns :
  es `sublist_of` edges_ g → view h (sortedges h (Graph ns es)) ⊆ view h g.
Proof.
  intros Hsub a. rewrite sortedges_view_perm. unfold view; simpl.
  intros Ha. eapply elem_of_sublist; [done|]. by apply fmap_sublist.
Qed.

Lemma rename_ends old_data new_data a :
  get_nodes (rename old_data new_data a)
  = ((if decide ((get_nodes a).1 = old_data) then new_data else (get_nodes a).1),
     (if decide ((get_nodes a).2 = old_data) then new_data else (get_nodes a).2)).
Proof. by destruct a. Qed.

(** Renaming to a value that is at no end of two edges keeps them
    apart. *)
Lemma rename_inj old_data new_data a b :
  ¬ touches new_data a → ¬ touches new_data b →
  rename old_data new_data a = rename old_data new_data b → a = b.
Proof.
  unfold touches. intros Ha Hb Heq.
  destruct a as [s1 d1 w1|s1 d1], b as [s2 d2 w2|s2 d2]; simpl in *;
    try done; repeat case_decide; naive_solver.
Qed.

(** Going back gives the edge again. *)
Lemma rename_back old_data new_data a :
  ¬ touches new_data a → rename new_data old_data (rename old_data new_data a) = a.
Proof.
  unfold touches. intros Ha.
  destruct a as [s1 d1 w1|s1 d1]; simpl in *; repeat case_decide; naive_solver.
Qed.

(** The three outcomes of [insert_edge]. *)
Lemma insert_edge_cases h g src dst weight :
  owned h g →
  (insert_edge h g src dst weight).1.2 = h ∧ (insert_edge h g src dst weight).2 = g
  ∨ src ∈ nodes_ g ∧ dst ∈ nodes_ g ∧ ¬ has_edge h g src dst weight
    ∧ ∃ h' g', insert_edge h g src dst weight = (Ret true, h', g')
        ∧ h' = h ++ [make_edge src dst weight]
        ∧ nodes_ g' = nodes_ g
        ∧ view h' g' ≡ₚ view h g ++ [make_edge src dst weight].
Proof.
  intros Hown.
  destruct (decide (src ∈ nodes_ g ∧ dst ∈ nodes_ g)) as [[Hs Hd]|Hn].
  - destruct (decide (has_edge h g src dst weight)) as [Hhas|Hno].
    + left. unfold insert_edge. rewrite (proj2 (both_nodes_true g src dst)) by done.
      rewrite bool_decide_eq_false_2; [done|]. rewrite find_end. by auto.
    + right. split_and!; try done.
      destruct Hown as [Hnd Hb]. unfold insert_edge.
      rewrite (proj2 (both_nodes_true g src dst)) by done.
      rewrite bool_decide_eq_true_2 by (by apply find_end).
      exists (h ++ [make_edge src dst weight]).
      exists (sortedges (h ++ [make_edge src dst weight])
                (Graph (nodes_ g) (edges_ g ++ [length h]))).
      split; [destruct weight; reflexivity|]. split; [done|]. split; [done|].
      rewrite sortedges_view_perm. unfold view at 1; simpl.
      rewrite fmap_app; simpl. rewrite deref_app_new.
      fold (view (h ++ [make_edge src dst weight]) g).
      by rewrite view_app_l.
  - left. unfold insert_edge. rewrite (proj2 (both_nodes_false g src dst)); [done|].
    apply not_and_l in Hn. done.
Qed.

(** I1 is kept: on a graph whose pointers are its own and whose edges end
    in nodes, every modifier, and copying, leaves a graph whose edges end
    in nodes. *)
Theorem I1_preserved h g :
  owned h g → I1 h g →
  I1 h (graph_copy g)
  ∧ (∀ value, I1 (insert_node h g value).1.2 (insert_node h g value).2)
  ∧ (∀ src dst weight,
       I1 (insert_edge h g src dst weight).1.2 (insert_edge h g src dst weight).2)
  ∧ (∀ old_data new_data,
       I1 (replace_node h g old_data new_data).1.2 (replace_node h g old_data new_data).2)
  ∧ (∀ old_data new_data,
       I1 (merge_replace_node h g old_data new_data).1.2
          (merge_replace_node h g old_data new_data).2)
  ∧ (∀ value, I1 (erase_node h g value).1.2 (erase_node h g value).2)
  ∧ (∀ src dst weight,
       I1 (erase_edge h g src dst weight).1.2 (erase_edge h g src dst weight).2)
  ∧ (∀ i, I1 (erase_edge_at h g i).1.2 (erase_edge_at h g i).2)
  ∧ (∀ i s, i ≤ s → I1 (erase_edge_range h g i s).1.2 (erase_edge_range h g i s).2)
  ∧ I1 (clear h g).1 (clear h g).2.
Proof.
  intros Hown HI1. split_and!.
  - by destruct g.
  - intros value. unfold insert_node. case_bool_decide; [done|]. simpl.
    unfold I1 in *. eapply Forall_impl; [done|]. simpl. set_solver.
  - intros src dst weight.
    destruct (insert_edge_cases h g src dst weight Hown)
      as [[-> ->]|(Hs & Hd & _ & h' & g' & -> & _ & Hn & Hp)]; [done|].
    simpl. unfold I1 in *. rewrite Hn, Hp. apply Forall_app. split; [done|].
    apply Forall_singleton. by rewrite get_nodes_make_edge.
  - intros old_data new_data.
    destruct (decide (old_data ∈ nodes_ g)) as [Ho|Ho];
      [destruct (decide (new_data ∈ nodes_ g)) as [Hn|Hn]|].
    + unfold replace_node. apply is_node_true in Ho, Hn. by rewrite Ho, Hn.
    + destruct (replace_node_run h g old_data new_data Hown Ho Hn)
        as (h' & g' & -> & Hns & Hp & _).
      simpl. unfold I1 in *. rewrite Hns, Hp. apply Forall_fmap.
      eapply Forall_impl; [done|]. intros a [Ha1 Ha2]. simpl.
      rewrite rename_ends. simpl. repeat case_decide; set_solver.
    + unfold replace_node. apply is_node_false in Ho. by rewrite Ho.
  - intros old_data new_data.
    destruct (decide (old_data ∈ nodes_ g ∧ new_data ∈ nodes_ g)) as [[Ho Hn]|Hno].
    + destruct (merge_replace_node_run h g old_data new_data Hown Ho Hn)
        as (h' & g' & -> & Hns & Hp & _).
      simpl. unfold I1 in *. rewrite Hns, Hp. apply Forall_forall. intros a Ha.
      assert (a ∈ rename old_data new_data <$> view h g) as Ha'.
      { pose proof (keep_first_elem_of [] (rename old_data new_data <$> view h g) a) as Hk.
        simpl in Hk. apply Hk in Ha as [Ha|Ha]; [by apply elem_of_nil in Ha|done]. }
      apply list_elem_of_fmap in Ha' as (x & -> & Hx).
      eapply Forall_forall in HI1 as [Hx1 Hx2]; [|done].
      rewrite rename_ends. simpl. repeat case_decide; done.
    + unfold merge_replace_node. rewrite (proj2 (both_nodes_false g old_data new_data)); [done|].
      apply not_and_l in Hno. done.
  - intros value. unfold erase_node.
    destruct (is_node g value) eqn:Hv; simpl; [|done].
    set (g' := sortedges h _).
    assert (view h g' ≡ₚ filter (λ a, ¬ touches value a) (view h g)) as Hp.
    { unfold g'. rewrite sortedges_view_perm. unfold view; simpl.
      rewrite erase_node_loop_filter. by rewrite filter_fmap. }
    unfold I1 in *. rewrite Hp. simpl.
    apply Forall_forall. intros a [Hnt Ha]%list_elem_of_filter.
    eapply Forall_forall in HI1 as [Hx1 Hx2]; [|done].
    unfold touches in Hnt. set_solver.
  - intros src dst weight. unfold erase_edge.
    destruct (is_node g src && is_node g dst); [|done].
    case_bool_decide; simpl; [done|].
    apply (I1_perm h g); [done| |done]. apply view_sublist, sublist_delete.
  - intros i. apply (I1_perm h g); [done| |done]. apply view_sublist, sublist_delete.
  - intros i s His. apply (I1_perm h g); [done| |done]. apply view_sublist.
    rewrite <-(take_drop i (edges_ g)) at 3. apply sublist_app; [done|].
    replace s with (i + (s - i)) by lia. rewrite <-drop_drop. apply sublist_drop.
  - constructor.
Qed.

(** I2 is kept.  On a graph whose pointers are its own,
    [merge_replace_node] that does not throw leaves no duplicate edge,
    whatever was there before; and when there is no duplicate, no
    modifier makes one, [replace_node] provided the edges end in nodes. *)
Theorem I2_preserved h g :
  owned h g →
  (∀ old_data new_data, old_data ∈ nodes_ g → new_data ∈ nodes_ g →
     I2 (merge_replace_node h g old_data new_data).1.2
        (merge_replace_node h g old_data new_data).2)
  ∧ (I2 h g →
     I2 h (graph_copy g)
     ∧ (∀ value, I2 (insert_node h g value).1.2 (insert_node h g value).2)
     ∧ (∀ src dst weight,
          I2 (insert_edge h g src dst weight).1.2 (insert_edge h g src dst weight).2)
     ∧ (I1 h g → ∀ old_data new_data,
          I2 (replace_node h g old_data new_data).1.2
             (replace_node h g old_data new_data).2)
     ∧ (∀ old_data new_data,
          I2 (merge_replace_node h g old_data new_data).1.2
             (merge_replace_node h g old_data new_data).2)
     ∧ (∀ value, I2 (erase_node h g value).1.2 (erase_node h g value).2)
     ∧ (∀ src dst weight,
          I2 (erase_edge h g src dst weight).1.2 (erase_edge h g src dst weight).2)
     ∧ (∀ i, I2 (erase_edge_at h g i).1.2 (erase_edge_at h g i).2)
     ∧ (∀ i s, i ≤ s → I2 (erase_edge_range h g i s).1.2 (erase_edge_range h g i s).2)
     ∧ I2 (clear h g).1 (clear h g).2).
Proof.
  intros Hown.
  assert (∀ old_data new_data, old_data ∈ nodes_ g → new_data ∈ nodes_ g →
     I2 (merge_replace_node h g old_data new_data).1.2
        (merge_replace_node h g old_data new_data).2) as Hmerge.
  { intros old_data new_data Ho Hn.
    destruct (merge_replace_node_run h g old_data new_data Hown Ho Hn)
      as (h' & g' & -> & _ & Hp & _).
    simpl. unfold I2. rewrite Hp.
    apply (keep_first_NoDup [] (rename old_data new_data <$> view h g)). constructor. }
  split; [done|]. intros HI2.
  assert (∀ es ns, es `sublist_of` edges_ g → I2 h (sortedges h (Graph ns es))) as Hsub.
  { intros es ns Hes. unfold I2. rewrite sortedges_view_perm. unfold view; simpl.
    apply (sublist_NoDup _ (deref h <$> edges_ g)); [exact HI2|by apply fmap_sublist]. }
  split_and!.
  - by destruct g.
  - intros value. unfold insert_node. by case_bool_decide.
  - intros src dst weight.
    destruct (insert_edge_cases h g src dst weight Hown)
      as [[-> ->]|(_ & _ & Hno & h' & g' & -> & _ & _ & Hp)]; [done|].
    simpl. unfold I2 in *. rewrite Hp. apply NoDup_app. split_and!; [done| |apply NoDup_singleton].
    intros a Ha ->%list_elem_of_singleton. done.
  - intros HI1 old_data new_data.
    destruct (decide (old_data ∈ nodes_ g)) as [Ho|Ho];
      [destruct (decide (new_data ∈ nodes_ g)) as [Hn|Hn]|].
    + unfold replace_node. apply is_node_true in Ho, Hn. by rewrite Ho, Hn.
    + destruct (replace_node_run h g old_data new_data Hown Ho Hn)
        as (h' & g' & -> & _ & Hp & _).
      simpl. unfold I2 in *. rewrite Hp. apply NoDup_fmap_2_strong; [|done].
      assert (∀ a, a ∈ view h g → ¬ touches new_data a) as Hfree.
      { intros a Ha. eapply Forall_forall in HI1 as [H1 H2]; [|done].
        unfold touches. intros [<-|<-]; done. }
      intros a b Ha Hb. apply rename_inj; by apply Hfree.
    + unfold replace_node. apply is_node_false in Ho. by rewrite Ho.
  - intros old_data new_data.
    destruct (decide (old_data ∈ nodes_ g ∧ new_data ∈ nodes_ g)) as [[Ho Hn]|Hno].
    + by apply Hmerge.
    + unfold merge_replace_node. rewrite (proj2 (both_nodes_false g old_data new_data)); [done|].
      apply not_and_l in Hno. done.
  - intros value. unfold erase_node.
    destruct (is_node g value); simpl; [|done]. apply Hsub, erase_node_loop_sublist.
  - intros src dst weight. unfold erase_edge.
    destruct (is_node g src && is_node g dst); [|done].
    case_bool_decide; simpl; [done|]. apply Hsub, sublist_delete.
  - intros i. apply Hsub, sublist_delete.
  - intros i s His. apply Hsub.
    rewrite <-(take_drop i (edges_ g)) at 3. apply sublist_app; [done|].
    replace s with (i + (s - i)) by lia. rewrite <-drop_drop. apply sublist_drop.
  - constructor.
Qed.

(** ** Graphs that share the store *)

(** What another graph of the same store shows is not changed by
    [insert_node], [insert_edge], [erase_node], the three [erase_edge]
    and [clear]: these write no edge object that exists.  [replace_node]
    and [merge_replace_node] write the objects of their own graph only:
    a graph that holds none of its pointers shows what it showed. *)
Theorem other_graph_unchanged h g other :
  Forall (λ e, e < length h) (edges_ other) →
  (∀ value, view (insert_node h g value).1.2 other = view h other)
  ∧ (∀ src dst weight, view (insert_edge h g src dst weight).1.2 other = view h other)
  ∧ (∀ value, view (erase_node h g value).1.2 other = view h other)
  ∧ (∀ src dst weight, view (erase_edge h g src dst weight).1.2 other = view h other)
  ∧ (∀ i, view (erase_edge_at h g i).1.2 other = view h other)
  ∧ (∀ i s, view (erase_edge_range h g i s).1.2 other = view h other)
  ∧ view (clear h g).1 other = view h other
  ∧ (owned h g → (∀ e, e ∈ edges_ other → e ∉ edges_ g) →
     ∀ old_data new_data,
       view (replace_node h g old_data new_data).1.2 other = view h other
       ∧ view (merge_replace_node h g old_data new_data).1.2 other = view h other).
Proof.
  intros Hb. split_and!.
  - intros value. unfold insert_node. by case_bool_decide.
  - intros src dst weight. unfold insert_edge.
    destruct (is_node g src && is_node g dst); [|done].
    case_bool_decide; [|done].
    destruct weight; simpl; by apply view_app_l.
  - intros value. unfold erase_node. by destruct (is_node g value).
  - intros src dst weight. unfold erase_edge.
    destruct (is_node g src && is_node g dst); [|done]. by case_bool_decide.
  - done.
  - done.
  - done.
  - intros Hown Hdisj old_data new_data.
    assert (∀ h', (∀ e, e ∉ edges_ g → deref h' e = deref h e) →
                  view h' other = view h other) as Hframe.
    { intros h' Hoth. unfold view. apply Forall_fmap_ext_1, Forall_forall.
      intros e He. by apply Hoth, Hdisj. }
    split.
    + destruct (decide (old_data ∈ nodes_ g)) as [Ho|Ho];
        [destruct (decide (new_data ∈ nodes_ g)) as [Hn|Hn]|].
      * unfold replace_node. apply is_node_true in Ho, Hn. by rewrite Ho, Hn.
      * destruct (replace_node_run h g old_data new_data Hown Ho Hn)
          as (h' & g' & -> & _ & _ & Hoth & _).
        by apply Hframe.
      * unfold replace_node. apply is_node_false in Ho. by rewrite Ho.
    + destruct (decide (old_data ∈ nodes_ g ∧ new_data ∈ nodes_ g)) as [[Ho Hn]|Hno].
      * destruct (merge_replace_node_run h g old_data new_data Hown Ho Hn)
          as (h' & g' & -> & _ & _ & Hoth).
        by apply Hframe.
      * unfold merge_replace_node.
        rewrite (proj2 (both_nodes_false g old_data new_data)); [done|].
        apply not_and_l in Hno. done.
Qed.

(** ** Round trips *)

(** After [insert_edge] has returned true the edge is there: [find]
    returns a position before the end that shows it, [is_connected]
    returns true, the destination is among the connections of the
    source, and inserting the same edge again returns false and changes
    nothing. *)
Theorem insert_edge_then_query h g src dst weight :
  owned h g → src ∈ nodes_ g → dst ∈ nodes_ g → ¬ has_edge h g src dst weight →
  ∃ h' g' ds,
    insert_edge h g src dst weight = (Ret true, h', g')
    ∧ has_edge h' g' src dst weight
    ∧ find h' g' src dst weight < edges_end g'
    ∧ iterator_deref h' g' (find h' g' src dst weight) = (src, dst, weight)
    ∧ is_connected h' g' src dst = Ret true
    ∧ connections h' g' src = Ret ds ∧ dst ∈ ds
    ∧ insert_edge h' g' src dst weight = (Ret false, h', g').
Proof.
  intros Hown Hs Hd Hno.
  destruct (insert_edge_fresh h g src dst weight Hown Hs Hd Hno)
    as (h' & g' & Hrun & Hown' & Hn & Hp).
  assert (has_edge h' g' src dst weight) as Hhas.
  { unfold has_edge. rewrite Hp. set_solver. }
  assert (find h' g' src dst weight < edges_end g') as Hlt.
  { pose proof (find_in_le h' (edges_ g') src dst weight).
    assert (find h' g' src dst weight ≠ edges_end g') by (rewrite find_end; by auto).
    unfold find, edges_end in *. lia. }
  destruct (connections_spec h' g' src) as (ds & Hds & _ & Hin); [by rewrite Hn|].
  exists h', g', ds. split; [done|]. split; [done|]. split; [done|]. split_and!.
  - destruct (find_in_first h' (edges_ g') src dst weight _ eq_refl Hlt) as [Hat _].
    unfold iterator_deref, find. rewrite list_lookup_fmap in Hat.
    destruct (edges_ g' !! find_in h' (edges_ g') src dst weight) as [e|] eqn:He; [|done].
    injection Hat as Hat. rewrite (list_lookup_total_correct _ _ _ He), Hat.
    by rewrite get_nodes_make_edge, get_weight_make_edge.
  - unfold is_connected. rewrite (proj2 (both_nodes_true g' src dst)) by (by rewrite Hn).
    f_equal. apply existsb_exists. unfold has_edge, view in Hhas.
    apply list_elem_of_fmap in Hhas as (e & He1 & He2). exists e.
    split; [by apply list_elem_of_In|]. rewrite <-He1, get_nodes_make_edge. simpl.
    by rewrite !bool_decide_eq_true_2.
  - done.
  - apply Hin. exists (make_edge src dst weight). split; [done|].
    unfold from_to. by rewrite get_nodes_make_edge.
  - unfold insert_edge. rewrite (proj2 (both_nodes_true g' src dst)) by (by rewrite Hn).
    rewrite bool_decide_eq_false_2; [done|]. rewrite find_end. by auto.
Qed.

(** [erase_edge] undoes [insert_edge]: on a graph that satisfies I3,
    inserting an edge that was not there and erasing it again leaves the
    nodes and the sequence of edges as they were. *)
Theorem insert_erase_edge_round_trip h g src dst weight :
  owned h g → I3 h g →
  src ∈ nodes_ g → dst ∈ nodes_ g → ¬ has_edge h g src dst weight →
  ∃ h1 g1 g2,
    insert_edge h g src dst weight = (Ret true, h1, g1)
    ∧ erase_edge h1 g1 src dst weight = (Ret true, h1, g2)
    ∧ nodes_ g2 = nodes_ g
    ∧ view h1 g2 = view h g
    ∧ I3 h1 g2.
Proof.
  intros Hown HI3 Hs Hd Hno.
  destruct (insert_edge_fresh h g src dst weight Hown Hs Hd Hno)
    as (h1 & g1 & Hrun & Hown1 & Hn & Hp).
  assert (has_edge h1 g1 src dst weight) as Hhas.
  { unfold has_edge. rewrite Hp. set_solver. }
  assert (find h1 g1 src dst weight ≠ edges_end g1) as Hne
    by (rewrite find_end; by auto).
  pose proof (find_in_le h1 (edges_ g1) src dst weight) as Hle.
  destruct (find_in_first h1 (edges_ g1) src dst weight _ eq_refl) as [Hat _].
  { unfold find, edges_end in Hne. lia. }
  exists h1, g1. eexists. split; [done|]. split.
  { unfold erase_edge. rewrite (proj2 (both_nodes_true g1 src dst)) by (by rewrite Hn).
    by rewrite bool_decide_eq_false_2 by done. }
  split; [done|]. split; [|apply sortedges_I3].
  apply (Sorted_unique edge_le); [apply sortedges_I3|done|].
  rewrite sortedges_view_perm. unfold view at 1; simpl.
  rewrite list_fmap_delete.
  apply (Permutation_cons_inv (a:=make_edge src dst weight)).
  rewrite <-(delete_Permutation _ _ _ Hat). fold (view h1 g1).
  rewrite Hp. symmetry. apply Permutation_cons_append.
Qed.

(** Renaming a node and renaming it back: on a graph that satisfies I1
    and I3, [replace_node(old, new)] followed by [replace_node(new, old)]
    both return true and leave the nodes and the sequence of edges as
    they were. *)
Theorem replace_node_round_trip h g old_data new_data :
  owned h g → I1 h g → I3 h g → old_data ∈ nodes_ g → new_data ∉ nodes_ g →
  ∃ h1 g1 h2 g2,
    replace_node h g old_data new_data = (Ret true, h1, g1)
    ∧ replace_node h1 g1 new_data old_data = (Ret true, h2, g2)
    ∧ nodes_ g2 = nodes_ g
    ∧ view h2 g2 = view h g.
Proof.
  intros Hown HI1 HI3 Ho Hn.
  assert (old_data ≠ new_data) as Hne by (by intros ->).
  destruct (replace_node_run h g old_data new_data Hown Ho Hn)
    as (h1 & g1 & Hr1 & Hns1 & Hp1 & _ & _ & Hown1).
  destruct (replace_node_run h1 g1 new_data old_data Hown1)
    as (h2 & g2 & Hr2 & Hns2 & Hp2 & _ & HI32 & _);
    [rewrite Hns1; set_solver..|].
  exists h1, g1, h2, g2. split; [done|]. split; [done|]. split.
  { rewrite Hns2, Hns1. apply set_eq. intros n.
    destruct (decide (n = old_data)) as [->|?]; set_solver. }
  assert (rename new_data old_data <$> (rename old_data new_data <$> view h g)
          = view h g) as Hback.
  { rewrite <-list_fmap_compose. rewrite <-(list_fmap_id (view h g)) at 2.
    apply Forall_fmap_ext_1, Forall_forall.
    intros a Ha. simpl. apply rename_back.
    eapply Forall_forall in HI1 as [H1 H2]; [|done].
    unfold touches. intros [<-|<-]; done. }
  apply (Sorted_unique edge_le); [done..|].
  by rewrite Hp2, Hp1, Hback.
Qed.

(** After a renaming that succeeds no edge starts or ends at the old
    node: [replace_node] has removed it from the nodes and put the new
    one in, [merge_replace_node] has kept it, without edges. *)
Theorem renamed_node_isolated h g old_data new_data :
  owned h g → old_data ≠ new_data →
  (∀ h' g', replace_node h g old_data new_data = (Ret true, h', g') →
     (old_data ∉ nodes_ g') ∧ new_data ∈ nodes_ g'
     ∧ Forall (λ a, ¬ touches old_data a) (view h' g'))
  ∧ (∀ h' g', merge_replace_node h g old_data new_data = (Ret (), h', g') →
     old_data ∈ nodes_ g' ∧ new_data ∈ nodes_ g'
     ∧ Forall (λ a, ¬ touches old_data a) (view h' g')).
Proof.
  intros Hown Hne.
  assert (∀ a, ¬ touches old_data (rename old_data new_data a)) as Hfree.
  { intros a. unfold touches. rewrite rename_ends. simpl.
    repeat case_decide; naive_solver. }
  split.
  - intros h' g' Hrun.
    destruct (decide (old_data ∈ nodes_ g)) as [Ho|Ho];
      [destruct (decide (new_data ∈ nodes_ g)) as [Hn|Hn]|].
    + unfold replace_node in Hrun. apply is_node_true in Ho, Hn.
      by rewrite Ho, Hn in Hrun.
    + destruct (replace_node_run h g old_data new_data Hown Ho Hn)
        as (h1 & g1 & Hr & Hns & Hp & _).
      rewrite Hr in Hrun. injection Hrun as <- <-.
      rewrite Hns, Hp. split; [set_solver|]. split; [set_solver|].
      apply Forall_fmap, Forall_forall. intros a _. apply Hfree.
    + unfold replace_node in Hrun. apply is_node_false in Ho. by rewrite Ho in Hrun.
  - intros h' g' Hrun.
    destruct (decide (old_data ∈ nodes_ g ∧ new_data ∈ nodes_ g)) as [[Ho Hn]|Hno].
    + destruct (merge_replace_node_run h g old_data new_data Hown Ho Hn)
        as (h1 & g1 & Hr & Hns & Hp & _).
      rewrite Hr in Hrun. injection Hrun as <- <-.
      rewrite Hns, Hp. split; [done|]. split; [done|].
      apply Forall_forall. intros a Ha.
      pose proof (keep_first_elem_of [] (rename old_data new_data <$> view h g) a) as Hk.
      simpl in Hk. apply Hk in Ha as [Ha|Ha]; [by apply elem_of_nil in Ha|].
      apply list_elem_of_fmap in Ha as (x & -> & _). apply Hfree.
    + unfold merge_replace_node in Hrun.
      rewrite (proj2 (both_nodes_false g old_data new_data)) in Hrun; [done|].
      apply not_and_l in Hno. done.
Qed.

(** ** Iteration *)

Lemma range_for_from_spec h g fuel (it : nat) :
  it ≤ length (edges_ g) → length (edges_ g) - it < fuel →
  range_for_from h g fuel it = triple <$> (deref h <$> drop it (edges_ g)).
Proof.
  revert it. induction fuel as [|fuel IH]; intros it Hit Hfuel; [lia|].
  simpl. unfold iterator_eqb, graph_end, edges_end. case_bool_decide as Hend.
  - subst it. by rewrite drop_all.
  - destruct (lookup_lt_is_Some_2 (edges_ g) it) as [e He]; [lia|].
    rewrite (drop_S _ e) by done. csimpl. f_equal.
    + unfold iterator_deref. by rewrite (list_lookup_total_correct _ _ _ He).
    + unfold iterator_next. apply IH; lia.
Qed.

(** The range-based [for] over a graph ends and visits every edge once,
    in the order of the vector, showing its ends and weight; [begin()]
    equals [end()] exactly when there is no edge; [--] undoes [++], and
    [--end()] shows the last edge. *)
Theorem range_for_spec h g :
  range_for h g = triple <$> view h g
  ∧ (∀ fuel, length (edges_ g) < fuel →
       range_for_from h g fuel (begin g) = triple <$> view h g)
  ∧ (∀ it, it < graph_end g → range_for h g !! it = Some (iterator_deref h g it))
  ∧ (iterator_eqb (begin g) (graph_end g) = true ↔ edges_ g = [])
  ∧ (∀ it, iterator_prev (iterator_next it) = it)
  ∧ (edges_ g ≠ [] →
     last (range_for h g) = Some (iterator_deref h g (iterator_prev (graph_end g)))).
Proof.
  assert (∀ fuel, length (edges_ g) < fuel →
       range_for_from h g fuel (begin g) = triple <$> view h g) as Hrun.
  { intros fuel Hfuel. unfold begin. rewrite range_for_from_spec by lia.
    by rewrite drop_0. }
  assert (range_for h g = triple <$> view h g) as Heq.
  { unfold range_for. apply Hrun. lia. }
  assert (∀ it, it < graph_end g → range_for h g !! it = Some (iterator_deref h g it))
    as Hat.
  { intros it Hit. rewrite Heq. unfold view, iterator_deref.
    rewrite !list_lookup_fmap.
    by rewrite (list_lookup_lookup_total_lt (edges_ g) it) by done. }
  split_and!; try done.
  - unfold iterator_eqb, begin, graph_end, edges_end. rewrite bool_decide_eq_true.
    split; [intros Hlen; by apply nil_length_inv|by intros ->].
  - intros Hne. rewrite last_lookup.
    assert (length (range_for h g) = length (edges_ g)) as Hlen.
    { rewrite Heq. unfold view. by rewrite !length_fmap. }
    rewrite Hlen. apply Hat. unfold iterator_prev, graph_end, edges_end.
    destruct (edges_ g); simpl; [done|lia].
Qed.

End gdwg.

(** * The tests and instances of the theorems *)

Local Open Scope Z_scope.

(** The test of the extractor, on [graph<int, int>]. *)
Example test_extractor :
  let v := [(4, 1, Some (-4)); (3, 2, Some 2); (2, 4, None); (2, 4, Some 2);
            (4, 1, None); (2, 1, Some 1); (6, 2, Some 5); (6, 3, Some 10);
            (1, 5, Some (-1)); (3, 6, Some (-8)); (4, 5, Some 3); (5, 2, None)] in
  let hg := fill ([], graph_default) v in
  let hg' := insert_node hg.1 hg.2 64 in
  extractor hg'.1.2 hg'.2 = Some "
1 (
  1 -> 5 | W | -1
)
2 (
  2 -> 1 | W | 1
  2 -> 4 | U
  2 -> 4 | W | 2
)
3 (
  3 -> 2 | W | 2
  3 -> 6 | W | -8
)
4 (
  4 -> 1 | U
  4 -> 1 | W | -4
  4 -> 5 | W | 3
)
5 (
  5 -> 2 | U
)
6 (
  6 -> 2 | W | 5
  6 -> 3 | W | 10
)
64 (
)
".
Proof. vm_compute. reflexivity. Qed.

(** The test of the edge member functions, on [graph<std::string, int>]. *)
Example test_print_edge :
  let hg := fill (E:=Z) ([], graph_of_list ["A"; "B"; "C"]%string)
              [("A", "B", Some 3); ("B", "C", None)]%string in
  match edges hg.1 hg.2 "A"%string "B"%string, edges hg.1 hg.2 "B"%string "C"%string with
  | Ret edge_AB, Ret edge_BC =>
      print_edge <$> (deref hg.1 <$> edge_AB) = ["A -> B | W | 3"%string]
      ∧ print_edge <$> (deref hg.1 <$> edge_BC) = ["B -> C | U"%string]
  | _, _ => False
  end.
Proof. vm_compute. split; reflexivity. Qed.

(** C1 (the defect): a graph with the nodes 1, 2, 3 and the edges 1 -> 2
    and 2 -> 3 is copied, and [replace_node(1, 9)] is called on the copy.
    The copy compares equal to the graph when it is made and holds the
    same pointers; the call succeeds; and the first edge of the graph the
    copy was made from now starts at 9, which is no node of that graph,
    and stands before the edge from 2: the graph has changed and
    satisfies neither I1 nor I3 any more. *)
Theorem C1_copy_shares_edges :
  let hg := fill (E:=Z) ([], graph_of_list [1; 2; 3]) [(1, 2, None); (2, 3, None)] in
  let h := hg.1 in
  let g := hg.2 in
  let copy_g := graph_copy g in
  let r := replace_node h copy_g 1 9 in
  owned h g ∧ I1 h g ∧ I2 h g ∧ I3 h g
  ∧ graph_eqb h g copy_g = true
  ∧ edges_ copy_g = edges_ g
  ∧ r.1.1 = Ret true
  ∧ view h g = [unweighted_edge 1 2; unweighted_edge 2 3]
  ∧ view r.1.2 g = [unweighted_edge 9 2; unweighted_edge 2 3]
  ∧ elements (nodes_ g) ≡ₚ [1; 2; 3]
  ∧ ¬ I1 r.1.2 g
  ∧ ¬ I3 r.1.2 g.
Proof.
  cbv zeta. split_and!; compute_done.
Qed.

(** C9 as stated fails on a graph that already holds an edge from [a] to
    [b]: with the edge 1 -> 2 of weight 7 there, both insertions return
    true and [edges(1, 2)] does not have length 2. *)
Lemma C9_prior_edge_counterexample :
  let h := [weighted_edge 1 2 7] in
  let g := Graph ({[1; 2]} : gset Z) [0%nat] in
  let r1 := insert_edge h g 1 2 None in
  let r2 := insert_edge r1.1.2 r1.2 1 2 (Some 5) in
  owned h g ∧ I1 h g ∧ I2 h g ∧ I3 h g
  ∧ r1.1.1 = Ret true ∧ r2.1.1 = Ret true
  ∧ ¬ ∃ l, edges r2.1.2 r2.2 1 2 = Ret l ∧ length l = 2%nat.
Proof.
  cbv zeta. split_and!; try compute_done.
  intros (l & Hl & Hlen). vm_compute in Hl. injection Hl as <-. discriminate Hlen.
Qed.

(** C7 as stated fails on a graph that does not satisfy I3, which a
    graph is after a node of its copy was renamed (C1).  The graph has
    the nodes 1, 2, 3 and the edges 1 -> 2, 2 -> 3 and 3 -> 1; it is
    copied and [replace_node(1, 9)] is called on the copy, so that its
    own vector shows 9 -> 2, 2 -> 3, 3 -> 9.  [erase_edge(find(2, 3))]
    takes the position, 1, before it sorts, and sorting moves 3 -> 9 to
    the front: the position returned shows 9 -> 2, not the edge 3 -> 9
    that followed the removed one. *)
Lemma C7_unsorted_graph_counterexample :
  let hg := fill (E:=Z) ([], graph_of_list [1; 2; 3])
              [(1, 2, None); (2, 3, None); (3, 1, None)] in
  let g := hg.2 in
  let copy_g := graph_copy g in
  let h := (replace_node hg.1 copy_g 1 9).1.2 in
  let i := find h g 2 3 None in
  let r := erase_edge_at h g i in
  owned h g
  ∧ view hg.1 g = [unweighted_edge 1 2; unweighted_edge 2 3; unweighted_edge 3 1]
  ∧ view h g = [unweighted_edge 9 2; unweighted_edge 2 3; unweighted_edge 3 9]
  ∧ i = 1%nat ∧ (i < edges_end g)%nat
  ∧ r.1.1 = 1%nat
  ∧ view r.1.2 r.2 = [unweighted_edge 3 9; unweighted_edge 9 2]
  ∧ iterator_deref h g (S i) = (3, 9, None)
  ∧ iterator_deref r.1.2 r.2 r.1.1 = (9, 2, None)
  ∧ view r.1.2 r.2 !! r.1.1 ≠ view h g !! S i
  ∧ view r.1.2 r.2 ≠ delete i (view h g).
Proof.
  cbv zeta. split_and!; compute_done.
Qed.

(** C8 as stated fails on a graph that does not satisfy I1, which a
    graph is after a node of its copy was renamed (C1).  The graph has
    the nodes 1 and 2 and the edge 1 -> 2; it is copied and
    [replace_node(2, 9)] is called on the copy.  Writing the graph out,
    [connections(1)] yields 9 and [edges(1, 9)] throws, as 9 is no node
    of the graph; the formatter is [noexcept], so the program terminates
    and no dump is produced. *)
Lemma C8_dangling_end_counterexample :
  let hg := fill (E:=Z) ([], graph_of_list [1; 2]) [(1, 2, None)] in
  let g := hg.2 in
  let copy_g := graph_copy g in
  let h := (replace_node hg.1 copy_g 2 9).1.2 in
  owned h g
  ∧ elements (nodes_ g) ≡ₚ [1; 2]
  ∧ view h g = [unweighted_edge 1 9]
  ∧ connections h g 1 = Ret [9]
  ∧ is_throw (edges h g 1 9) = true
  ∧ extractor h g = None
  ∧ ¬ ∃ s, extractor h g = Some s ∧ dump_of h g s.
Proof.
  cbv zeta. split_and!; try compute_done.
  intros (s & Hs & _). vm_compute in Hs. discriminate Hs.
Qed.

(** The theorems at the graphs of the tests. *)

Lemma C2_insert_edge_witness :
  let h := [weighted_edge 1 2 5] in
  let g := Graph ({[1; 2]} : gset Z) [0%nat] in
  owned h g
  ∧ is_throw (insert_edge h g 3 1 None).1.1 = true
  ∧ insert_edge h g 1 2 (Some 5) = (Ret false, h, g)
  ∧ (∃ h' g', insert_edge h g 1 2 None = (Ret true, h', g')
       ∧ view h' g' ≡ₚ view h g ++ [unweighted_edge 1 2] ∧ I3 h' g').
Proof.
  intros h g. assert (owned h g) as Hown by compute_done.
  destruct (C2_insert_edge h g 3 1 None Hown) as (H1 & _ & _).
  destruct (C2_insert_edge h g 1 2 (Some 5) Hown) as (_ & H2 & _).
  destruct (C2_insert_edge h g 1 2 None Hown) as (_ & _ & H3).
  split; [done|]. split; [rewrite H1; [done|left; compute_done]|].
  split; [apply H2; compute_done|].
  destruct H3 as (h' & g' & Hr & _ & _ & _ & Hp & HI3); [compute_done..|].
  by exists h', g'.
Defined.

Lemma C3_I3_preserved_witness :
  let h := [weighted_edge 1 2 5; unweighted_edge 1 2; weighted_edge 2 1 0] in
  let g := Graph ({[1; 2]} : gset Z) [1%nat; 0%nat; 2%nat] in
  I3 h g
  ∧ I3 (replace_node h g 1 3).1.2 (replace_node h g 1 3).2
  ∧ I3 (merge_replace_node h g 1 2).1.2 (merge_replace_node h g 1 2).2.
Proof.
  intros h g. assert (I3 h g) as HI3 by compute_done.
  destruct (C3_I3_preserved h g) as (_ & _ & H).
  destruct (H HI3) as (_ & _ & _ & Hrep & Hmerge & _).
  split; [done|]. split; [apply Hrep|apply Hmerge].
Defined.

Lemma C4_merge_replace_node_witness :
  let h := [weighted_edge "A" "C" 2; weighted_edge "B" "C" 2]%string in
  let g := Graph ({["A"; "B"; "C"]} : gset string)%string [0%nat; 1%nat] in
  owned h g
  ∧ ∃ h' g' l, merge_replace_node h g "A"%string "B"%string = (Ret (), h', g')
      ∧ edges h' g' "B"%string "C"%string = Ret l
      ∧ length l = 1%nat.
Proof.
  intros h g. assert (owned h g) as Hown by compute_done.
  split; [done|].
  destruct (C4_merge_replace_node h g "A"%string "B"%string Hown) as (_ & _ & H).
  apply (H "C"%string 2); [done|done|done].
Defined.

Lemma C5_throw_unchanged_witness :
  let h := [weighted_edge 1 2 5] in
  let g := Graph ({[1; 2]} : gset Z) [0%nat] in
  is_throw (erase_edge h g 1 3 None).1.1 = true
  ∧ (erase_edge h g 1 3 None).1.2 = h ∧ (erase_edge h g 1 3 None).2 = g.
Proof.
  intros h g. assert (is_throw (erase_edge h g 1 3 None).1.1 = true) as Hthrow
    by compute_done.
  split; [done|].
  destruct (C5_throw_unchanged h g) as (_ & _ & _ & H). by apply H.
Defined.

Lemma C6_replace_node_witness :
  let h := [weighted_edge "A" "B" 3; weighted_edge "B" "C" 5; unweighted_edge "B" "B"]%string in
  let g := Graph ({["A"; "B"; "C"]} : gset string)%string [0%nat; 2%nat; 1%nat] in
  owned h g
  ∧ ∃ h' g', replace_node h g "B"%string "T"%string = (Ret true, h', g')
      ∧ view h' g' ≡ₚ [weighted_edge "A" "T" 3; weighted_edge "T" "C" 5;
                       unweighted_edge "T" "T"]%string
      ∧ I3 h' g'.
Proof.
  intros h g. assert (owned h g) as Hown by compute_done.
  split; [done|].
  destruct (C6_replace_node h g "B"%string "T"%string Hown) as (_ & _ & H).
  destruct H as (h' & g' & Hr & _ & Hp & _ & HI3); [compute_done..|].
  exists h', g'. split; [done|]. split; [|done].
  rewrite Hp. by compute_done.
Defined.

Lemma C7_erase_edge_iterator_witness :
  let h := [weighted_edge "A" "D" 3; weighted_edge "B" "B" 1; weighted_edge "B" "D" 6]%string in
  let g := Graph ({["A"; "B"; "C"; "D"]} : gset string)%string [0%nat; 1%nat; 2%nat] in
  I3 h g
  ∧ (∃ g', erase_edge_range h g 0 2 = (0%nat, h, g')
       ∧ view h g' = [weighted_edge "B" "D" 6]%string
       ∧ iterator_deref h g' 0 = iterator_deref h g 2)
  ∧ (∃ g', erase_edge_at h g 1 = (1%nat, h, g')
       ∧ view h g' = [weighted_edge "A" "D" 3; weighted_edge "B" "D" 6]%string
       ∧ iterator_deref h g' 1 = iterator_deref h g 2).
Proof.
  intros h g. assert (I3 h g) as HI3 by compute_done.
  destruct (C7_erase_edge_iterator h g HI3) as [Hat Hrange].
  split; [done|]. split.
  - destruct (Hrange 0%nat 2%nat) as (g' & Hr & _ & _ & Hv & _ & _ & He);
      [simpl; lia..|].
    exists g'. split; [done|]. split; [done|].
    unfold iterator_deref. rewrite (He ltac:(compute_done)). reflexivity.
  - destruct (Hat 1%nat) as (g' & Hr & _ & _ & Hv & _ & _ & He); [simpl; lia|].
    exists g'. split; [done|]. split; [done|].
    unfold iterator_deref. rewrite (He ltac:(compute_done)). reflexivity.
Defined.

Lemma C8_extractor_dump_witness :
  let h := [weighted_edge 1 5 (-1); unweighted_edge 5 1; weighted_edge 5 1 2] in
  let g := Graph ({[1; 5; 64]} : gset Z) [0%nat; 1%nat; 2%nat] in
  I1 h g ∧ ∃ s, extractor h g = Some s ∧ dump_of h g s.
Proof.
  intros h g. assert (I1 h g) as HI1 by compute_done.
  split; [done|]. by destruct (C8_extractor_dump h g HI1) as (H & _).
Defined.

Lemma C9_unweighted_weighted_coexist_witness :
  let h := [] in
  let g := Graph ({[1; 2]} : gset Z) [] in
  owned h g
  ∧ ∃ h1 g1 h2 g2 l,
      insert_edge h g 1 2 None = (Ret true, h1, g1)
      ∧ insert_edge h1 g1 1 2 (Some 5) = (Ret true, h2, g2)
      ∧ edges h2 g2 1 2 = Ret l
      ∧ length l = 2%nat
      ∧ deref h2 <$> l = [unweighted_edge 1 2; weighted_edge 1 2 5].
Proof.
  intros h g. assert (owned h g) as Hown by compute_done.
  split; [done|].
  destruct (C9_unweighted_weighted_coexist h g 1 2 5) as (_ & H).
  destruct H as (h1 & g1 & h2 & g2 & l & Hr1 & Hr2 & Hl & Hlen & _ & _ & _ & Hval);
    [compute_done..|].
  exists h1, g1, h2, g2, l. split_and!; try done. by apply Hval.
Defined.

Lemma C10_merge_replace_same_witness :
  let h := [weighted_edge 1 2 5; unweighted_edge 1 2; weighted_edge 2 1 0] in
  let g := Graph ({[1; 2]} : gset Z) [1%nat; 0%nat; 2%nat] in
  I2 h g ∧ I3 h g ∧ merge_replace_node h g 1 1 = (Ret (), h, g).
Proof.
  intros h g. assert (I2 h g) as HI2 by compute_done.
  assert (I3 h g) as HI3 by compute_done.
  split; [done|]. split; [done|].
  destruct (C10_merge_replace_same h g 1 HI2) as (g' & Hr & _ & _ & _ & _ & Heq);
    [compute_done|].
  by rewrite Hr, (Heq HI3).
Defined.

(** The test of the iterator, on [graph<int, int>]. *)
Example test_iterator :
  let v := [(21, 14, Some 23); (1, 12, Some 3); (1, 21, Some 12); (7, 21, Some 13);
            (14, 14, Some 0); (19, 21, Some 2); (21, 31, Some 14); (1, 7, Some 4);
            (19, 1, Some 3); (12, 19, Some 16)] in
  let hg := fill ([], graph_default) v in
  iterator_deref hg.1 hg.2 (iterator_next (begin hg.2)) = (1, 12, Some 3)
  ∧ iterator_deref hg.1 hg.2 (iterator_prev (graph_end hg.2)) = (21, 31, Some 14)
  ∧ range_for hg.1 hg.2
    = [(1, 7, Some 4); (1, 12, Some 3); (1, 21, Some 12); (7, 21, Some 13);
       (12, 19, Some 16); (14, 14, Some 0); (19, 1, Some 3); (19, 21, Some 2);
       (21, 14, Some 23); (21, 31, Some 14)].
Proof. cbv zeta. split_and!; compute_done. Qed.

(** The further theorems at graphs of the tests. *)

Lemma graph_eqb_spec_witness :
  let h := [weighted_edge "A" "S" 1; weighted_edge "A" "C" 2]%string in
  let g := Graph ({["A"; "C"; "S"]} : gset string)%string [1%nat; 0%nat] in
  let other := Graph ({["S"; "C"; "A"]} : gset string)%string [0%nat; 1%nat] in
  I2 h other ∧ graph_eqb h g other = true ∧ graph_eqb h other g = true.
Proof.
  intros h g other. assert (I2 h other) as HI2 by compute_done.
  destruct (graph_eqb_spec h g other HI2) as (Hiff & Hsym & _).
  assert (graph_eqb h g other = true) as Heq.
  { apply Hiff. split; compute_done. }
  split; [done|]. split; [done|]. rewrite <-Hsym; [done|compute_done].
Defined.

Lemma I1_preserved_witness :
  let h := [weighted_edge "A" "B" 3; weighted_edge "B" "C" 5]%string in
  let g := Graph ({["A"; "B"; "C"]} : gset string)%string [0%nat; 1%nat] in
  owned h g ∧ I1 h g
  ∧ I1 (replace_node h g "B" "T")%string.1.2 (replace_node h g "B" "T")%string.2
  ∧ I1 (erase_node h g "B"%string).1.2 (erase_node h g "B"%string).2.
Proof.
  intros h g. assert (owned h g) as Hown by compute_done.
  assert (I1 h g) as HI1 by compute_done.
  destruct (I1_preserved h g Hown HI1) as (_ & _ & _ & Hrep & _ & Herase & _).
  split; [done|]. split; [done|]. split; [apply Hrep|apply Herase].
Defined.

Lemma I2_preserved_witness :
  let h := [weighted_edge "A" "C" 2; weighted_edge "B" "C" 2]%string in
  let g := Graph ({["A"; "B"; "C"]} : gset string)%string [0%nat; 1%nat] in
  owned h g
  ∧ I2 (merge_replace_node h g "A" "B")%string.1.2 (merge_replace_node h g "A" "B")%string.2.
Proof.
  intros h g. assert (owned h g) as Hown by compute_done.
  destruct (I2_preserved h g Hown) as (Hmerge & _).
  split; [done|]. apply Hmerge; compute_done.
Defined.

Lemma other_graph_unchanged_witness :
  let h := [weighted_edge 1 2 5; unweighted_edge 2 3] in
  let g := Graph ({[1; 2; 3]} : gset Z) [0%nat; 1%nat] in
  let other := graph_copy g in
  Forall (λ e, (e < length h)%nat) (edges_ other)
  ∧ view (insert_edge h g 3 1 None).1.2 other = view h other
  ∧ view (erase_node h g 2).1.2 other = view h other.
Proof.
  intros h g other.
  assert (Forall (λ e, (e < length h)%nat) (edges_ other)) as Hb by compute_done.
  destruct (other_graph_unchanged h g other Hb) as (_ & Hins & Herase & _).
  split; [done|]. split; [apply Hins|apply Herase].
Defined.

Lemma insert_edge_then_query_witness :
  let h := [weighted_edge 1 2 5] in
  let g := Graph ({[1; 2; 3]} : gset Z) [0%nat] in
  owned h g
  ∧ ∃ h' g', insert_edge h g 2 3 None = (Ret true, h', g')
      ∧ is_connected h' g' 2 3 = Ret true
      ∧ insert_edge h' g' 2 3 None = (Ret false, h', g').
Proof.
  intros h g. assert (owned h g) as Hown by compute_done.
  split; [done|].
  destruct (insert_edge_then_query h g 2 3 None Hown)
    as (h' & g' & ds & Hr & _ & _ & _ & Hc & _ & _ & Hagain); [compute_done..|].
  by exists h', g'.
Defined.

Lemma insert_erase_edge_round_trip_witness :
  let h := [weighted_edge 1 2 5; unweighted_edge 2 3] in
  let g := Graph ({[1; 2; 3]} : gset Z) [0%nat; 1%nat] in
  owned h g ∧ I3 h g
  ∧ ∃ h1 g1 g2, insert_edge h g 1 3 (Some 4) = (Ret true, h1, g1)
      ∧ erase_edge h1 g1 1 3 (Some 4) = (Ret true, h1, g2)
      ∧ view h1 g2 = view h g.
Proof.
  intros h g. assert (owned h g) as Hown by compute_done.
  assert (I3 h g) as HI3 by compute_done.
  split; [done|]. split; [done|].
  destruct (insert_erase_edge_round_trip h g 1 3 (Some 4) Hown HI3)
    as (h1 & g1 & g2 & Hr1 & Hr2 & _ & Hv & _); [compute_done..|].
  by exists h1, g1, g2.
Defined.

Lemma replace_node_round_trip_witness :
  let h := [weighted_edge "A" "B" 3; weighted_edge "B" "C" 5]%string in
  let g := Graph ({["A"; "B"; "C"]} : gset string)%string [0%nat; 1%nat] in
  owned h g ∧ I1 h g ∧ I3 h g
  ∧ ∃ h1 g1 h2 g2, replace_node h g "B" "T"%string = (Ret true, h1, g1)
      ∧ replace_node h1 g1 "T" "B"%string = (Ret true, h2, g2)
      ∧ nodes_ g2 = nodes_ g
      ∧ view h2 g2 = view h g.
Proof.
  intros h g. assert (owned h g) as Hown by compute_done.
  assert (I1 h g) as HI1 by compute_done.
  assert (I3 h g) as HI3 by compute_done.
  split; [done|]. split; [done|]. split; [done|].
  apply (replace_node_round_trip h g "B" "T"%string Hown HI1 HI3); compute_done.
Defined.

Lemma renamed_node_isolated_witness :
  let h := [weighted_edge "A" "B" 1; weighted_edge "A" "C" 2; weighted_edge "A" "D" 3;
            weighted_edge "B" "B" 1]%string in
  let g := Graph ({["A"; "B"; "C"; "D"]} : gset string)%string
             [0%nat; 1%nat; 2%nat; 3%nat] in
  let r := merge_replace_node h g "A" "B"%string in
  owned h g
  ∧ r.1.1 = Ret ()
  ∧ "A"%string ∈ nodes_ r.2
  ∧ Forall (λ a, ¬ touches "A"%string a) (view r.1.2 r.2).
Proof.
  intros h g r. assert (owned h g) as Hown by compute_done.
  destruct (renamed_node_isolated h g "A" "B"%string Hown) as (_ & Hmerge); [done|].
  destruct (Hmerge r.1.2 r.2) as (Hnode & _ & Hfree); [compute_done|].
  split; [done|]. split; [compute_done|]. done.
Defined.
